(** * AccAltProj: accelerated alternating projections for robust PCA

    A shallow embedding of the numerical core of [AccAlt.ipynb]
    ([soft_threshold], [hard_threshold], [trim], [AccAltProj]) and the
    properties of it that the specification states.

    Conventions of the embedding.
    - A NumPy [float64] is an exact real number ([R]).  The one place where
      IEEE arithmetic decides the control flow, the quotient
      [norm(..)/norm(D)] whose denominator may be zero, is modelled with
      its non-finite results ([np_div] below).
    - A two-dimensional [ndarray] is the list of its rows; the shape checks
      of NumPy are not modelled (the operations are total and truncate to
      the common shape).
    - [scipy.sparse.linalg.svds], [scipy.linalg.svd] and [scipy.linalg.qr]
      are library code: they are the fields of the class [LinAlg], they are
      taken to return, and the facts about their results that a property
      relies on are hypotheses of that property.  A call in which one of
      them raises instead (as [svds] does on an all-zero matrix) ends in
      that exception and returns nothing.
    - A Python exception is the [Raised] outcome of the result type [py].
    - [niter] is any integer; the rank [r] is a natural number.
    - [print] is not modelled. *)

From Stdlib Require Import Reals Lra Lia ZArith List.
From Stdlib Require String.
From stdpp Require Import base option list gmap.
Import ListNotations.

Local Open Scope R_scope.

(** * Part I: the program *)

(** ** Outcomes of Python calls *)

Inductive exn : Type :=
  | IndexError
  | ValueError
  | ZeroDivisionError.

Inductive py (A : Type) : Type :=
  | Returned (a : A)
  | Raised (e : exn).

Arguments Returned {A} a.

Arguments Raised {A} e.

#[global] Instance py_ret : MRet py := fun A a => Returned a.

#[global] Instance py_bind : MBind py := fun A B k c =>
  match c with
  | Returned a => k a
  | Raised e => Raised e
  end.

(** ** Arrays *)

Abbreviation vec := (list R).

Abbreviation matrix := (list (list R)).

(** [x[i]] on a one-dimensional array or a Python list, for [i >= 0]. *)
Definition getitem {A : Type} (l : list A) (i : nat) : py A :=
  match l !! i with
  | Some a => Returned a
  | None => Raised IndexError
  end.

(** [x[i] = v]: NumPy raises [IndexError] when [i] is out of bounds. *)
Definition setitem {A : Type} (l : list A) (i : nat) (v : A) : py (list A) :=
  if decide (i < length l)%nat then Returned (<[i:=v]> l) else Raised IndexError.

(** Elementwise application. *)
Definition mmap (f : R -> R) (X : matrix) : matrix :=
  (fun row : vec => f <$> row) <$> X.

(** ** Thresholding operators *)

(** [np.sign] *)
Definition sign (x : R) : R :=
  if Rlt_dec 0 x then 1 else if Rlt_dec x 0 then -1 else 0.

(** The value of the boolean [np.abs(x) >= threshold] once it is multiplied
    with a float: [True] is [1.0], [False] is [0.0]. *)
Definition ge_mask (a t : R) : R := if Rle_dec t a then 1 else 0.

Definition soft_threshold_elt (threshold x : R) : R :=
  sign x * Rmax (Rabs x - threshold) 0.

Definition hard_threshold_elt (threshold x : R) : R :=
  x * ge_mask (Rabs x) threshold.

(** def soft_threshold(x, threshold):
        return np.sign(x) * np.maximum(np.abs(x) - threshold, 0) *)
Definition soft_threshold (x : matrix) (threshold : R) : py matrix :=
  Returned (mmap (soft_threshold_elt threshold) x).

(** def hard_threshold(x, threshold):
        return x * (np.abs(x) >= threshold) *)
Definition hard_threshold (x : matrix) (threshold : R) : py matrix :=
  Returned (mmap (hard_threshold_elt threshold) x).

(** ** Dense linear algebra on lists of rows *)

Definition sum_list (v : vec) : R := foldr Rplus 0 v.

Definition dot (u v : vec) : R := sum_list (zip_with Rmult u v).

Definition nrows (A : matrix) : nat := length A.

Definition ncols (A : matrix) : nat :=
  match A with
  | [] => 0%nat
  | row :: _ => length row
  end.

(** [A.T] *)
Definition transpose (A : matrix) : matrix :=
  foldr (zip_with cons) (replicate (ncols A) []) A.

(** [A @ B] *)
Definition matmul (A B : matrix) : matrix :=
  (fun row => dot row <$> transpose B) <$> A.

Infix "@@" := matmul (at level 40, left associativity).

(** [A - B] *)
Definition msub (A B : matrix) : matrix := zip_with (zip_with Rminus) A B.

(** [np.zeros((m, n))] and [np.zeros_like(A)] *)
Definition zeros (m n : nat) : matrix := replicate m (replicate n 0).

Definition zeros_like (A : matrix) : matrix := mmap (fun _ => 0) A.

(** [np.eye(n)] *)
Definition identity (n : nat) : matrix :=
  (fun i => <[i:=1]> (replicate n 0)) <$> seq 0 n.

(** [np.diag(v)] for a one-dimensional [v] *)
Definition diag (v : vec) : matrix :=
  imap (fun i x => <[i:=x]> (replicate (length v) 0)) v.

(** [np.hstack([A, B])] *)
Definition hstack (A B : matrix) : matrix := zip_with app A B.

(** [np.block([[A, B], [C, E]])] *)
Definition block (A B C E : matrix) : matrix := hstack A B ++ hstack C E.

(** [A[:, :r]] *)
Definition cols (r : nat) (A : matrix) : matrix := take r <$> A.

(** [norm(A, 'fro')] *)
Definition norm_fro (A : matrix) : R :=
  sqrt (sum_list ((fun row => dot row row) <$> A)).

(** [np.cbrt] *)
Definition cbrt (x : R) : R :=
  if Rlt_dec 0 x then Rpower x (/ 3)
  else if Rlt_dec x 0 then - Rpower (- x) (/ 3)
  else 0.

(** ** The float64 quotient

    [norm(D - L - S, 'fro') / norm(D, 'fro')] divides two [np.float64]
    scalars: a zero denominator gives [nan] or an infinity (and a warning),
    not an exception. *)

Inductive float64 : Type :=
  | Finite (x : R)
  | PInf
  | NInf
  | NaN.

Definition np_div (a b : R) : float64 :=
  if Req_dec_T b 0 then
    if Rlt_dec 0 a then PInf else if Rlt_dec a 0 then NInf else NaN
  else Finite (a / b).

(** [x < eps] for a finite [eps]; every comparison with [nan] is [False]. *)
Definition float_lt (x : float64) (eps : R) : bool :=
  match x with
  | Finite a => if Rlt_dec a eps then true else false
  | NInf => true
  | PInf | NaN => false
  end.

(** [np.empty(n)]: the initial contents are arbitrary (and never read). *)
Definition np_empty (n : Z) : py (list float64) :=
  if decide (n < 0)%Z then Raised ValueError
  else Returned (replicate (Z.to_nat n) (Finite 0)).

(** An operand [a / m] of Python numbers, [m] an [int]: the bounds
    [mu_U], [mu_V] are taken to be Python numbers, as the entries of a list
    literal such as the default [[5]] are.  (For a NumPy scalar [a] the
    quotient by [0] would be an infinity or [nan] with a warning; no
    property below is about [m = 0].) *)
Definition py_div (a : R) (m : nat) : py R :=
  if decide (m = 0%nat) then Raised ZeroDivisionError else Returned (a / INR m).

(** ** The linear-algebra library *)

Class LinAlg : Type := {
  (** [scipy.sparse.linalg.svds(A, k)], returning [(U, s, Vt)] *)
  svds : matrix -> nat -> matrix * vec * matrix;
  (** [scipy.linalg.svd(A, full_matrices=False)], returning [(U, s, Vh)] *)
  svd : matrix -> matrix * vec * matrix;
  (** [scipy.linalg.qr(A, mode='economic')], returning [(Q, R)] *)
  qr : matrix -> matrix * matrix
}.

(** ** trim *)

(** [np.sum(U**2, axis=1)] *)
Definition row_norm_square (U : matrix) : vec :=
  (fun row => sum_list ((fun x => x ^ 2) <$> row)) <$> U.

(** [row_norm_square > bound] *)
Definition big_rows (row_norm_square : vec) (bound : R) : list bool :=
  (fun s => if Rlt_dec bound s then true else false) <$> row_norm_square.

(** The new contents of [U] after
    [U[big, :] = (U[big, :].T * (bound / np.sqrt(row_norm_square[big]))).T]. *)
Definition rescale_row (bound : R) (big : bool) (s : R) (row : vec) : vec :=
  if big then (fun x => x * (bound / sqrt s)) <$> row else row.

Definition rescale_big_rows (U : matrix) (big : list bool) (s : vec) (bound : R)
  : matrix :=
  zip_with (fun row bs => rescale_row bound bs.1 bs.2 row) U (zip big s).

(** The store of the arrays that the caller of [trim] holds. *)
Abbreviation loc := positive.

Abbreviation heap := (gmap loc matrix).

(** The local variables of [trim] when it reaches its [return]. *)
Record trim_locals : Type := {
  Q1 : matrix; R1 : matrix; Q2 : matrix; R2 : matrix;
  U_temp : matrix; Sig_out : vec; V_temp : matrix;
  U_out : matrix; V_out : matrix
}.

Section Trim.
Context `{LinAlg}.

(** The body of [trim] up to its [return]: [U] and [V] are references
    into the caller's store [h], which the two masked assignments
    update. *)
Definition trim_body (U : loc) (Sig : matrix) (V : loc) (mu_U mu_V : R)
    (h : heap) : py (trim_locals * heap) :=
  let m := nrows (h !!! U) in
  let r := ncols (h !!! U) in
  let row_norm_square_U := row_norm_square (h !!! U) in
  bound_U ← py_div (mu_U * INR r) m;
  let big_rows_U := big_rows row_norm_square_U bound_U in
  let h := <[U := rescale_big_rows (h !!! U) big_rows_U row_norm_square_U bound_U]> h in
  let n := nrows (h !!! V) in
  let r := ncols (h !!! V) in
  let row_norm_square_V := row_norm_square (h !!! V) in
  bound_V ← py_div (mu_V * INR r) n;
  let big_rows_V := big_rows row_norm_square_V bound_V in
  let h := <[V := rescale_big_rows (h !!! V) big_rows_V row_norm_square_V bound_V]> h in
  let '(Q1, R1) := qr (h !!! U) in
  let '(Q2, R2) := qr (h !!! V) in
  let '(U_temp, Sig_out, V_temp) := svd (R1 @@ Sig @@ transpose R2) in
  let U_out := Q1 @@ U_temp in
  let V_out := Q2 @@ V_temp in
  mret ({| Q1 := Q1; R1 := R1; Q2 := Q2; R2 := R2;
           U_temp := U_temp; Sig_out := Sig_out; V_temp := V_temp;
           U_out := U_out; V_out := V_out |}, h).

(** [return U_out, V_out] *)
Definition trim (U : loc) (Sig : matrix) (V : loc) (mu_U mu_V : R) (h : heap)
  : py (matrix * matrix * heap) :=
  '(f, h) ← trim_body U Sig V mu_U mu_V h;
  mret (U_out f, V_out f, h).
End Trim.

(** ** AccAltProj *)

(** The dictionary [params]: a key that is absent is [None], and
    [params.get(key, d)] is [default d]. *)
Record params : Type := {
  p_niter : option Z;
  p_eps : option R;
  p_β : option R;
  p_β_init : option R;
  p_γ : option R;
  p_µ : option (list R);
  p_trimming : option bool
}.

(** [{}] *)
Definition no_params : params :=
  {| p_niter := None; p_eps := None; p_β := None; p_β_init := None;
     p_γ := None; p_µ := None; p_trimming := None |}.

Definition niter (p : params) : Z := default 100%Z (p_niter p).

Definition eps (p : params) : R := default (1 / 10 ^ 5) (p_eps p).

Definition β (D : matrix) (p : params) : R :=
  default (1 / (2 * cbrt (INR (nrows D * ncols D) / 4))) (p_β p).

Definition β_init (D : matrix) (p : params) : R :=
  default (4 * β D p) (p_β_init p).

Definition γ (p : params) : R := default (7 / 10) (p_γ p).

Definition µ (p : params) : list R := default [5] (p_µ p).

Definition trimming (p : params) : bool := default false (p_trimming p).

(** The local variables of [AccAltProj] that live across iterations. *)
Record state : Type := {
  st_U : matrix; st_Sigma : vec; st_V : matrix;
  st_L : matrix; st_S : matrix; st_ζ : R;
  st_out : list float64
}.

(** How the [for] loop was left: by [break] in iteration [i], or because
    [range(niter)] was used up. *)
Inductive loop_exit : Type :=
  | Converged (i : nat)
  | Exhausted.

(** The arrays that a call hands back. *)
Inductive ndarray : Type :=
  | Arr1 (v : list float64)
  | Arr2 (A : matrix).

Section AccAltProj.
Context `{LinAlg}.
Variables (D : matrix) (r : nat) (p : params).

(** [norm(D - L - S, 'fro') / norm(D, 'fro')] *)
Definition residual (L S : matrix) : float64 :=
  np_div (norm_fro (msub (msub D L) S)) (norm_fro D).

(** The statements before the loop. *)
Definition AccAltProj_init : py state :=
  σ ← getitem (svds D 1).1.2 0;
  let ζ := β_init D p * σ in
  S ← hard_threshold D ζ;
  let '(U, Sigma, Vt) := svds (msub D S) r in
  let V := transpose Vt in
  let L := U @@ diag Sigma @@ Vt in
  σ ← getitem Sigma 0;
  let ζ := β D p * σ in
  S ← hard_threshold (msub D L) ζ;
  out ← np_empty (niter p);
  out ← setitem out 0 (residual L S);
  mret {| st_U := U; st_Sigma := Sigma; st_V := V; st_L := L; st_S := S;
       st_ζ := ζ; st_out := out |}.

(** The statement [U, V = trim(U, np.diag(Sigma[:r]), V, µ[0], µ[-1])]:
    the two arrays are distinct objects of the store; [U] and [V] are
    rebound to the arrays that [trim] returns, and the rescaled originals
    are dropped with the store. *)
Definition trim_step (st : state) : py state :=
  mu_U ← getitem (µ p) 0;
  mu_V ← getitem (µ p) (length (µ p) - 1);
  '(U', V', _) ← trim 1%positive (diag (take r (st_Sigma st))) 2%positive mu_U mu_V
                  (<[2%positive := st_V st]> {[1%positive := st_U st]});
  mret {| st_U := U'; st_Sigma := st_Sigma st; st_V := V'; st_L := st_L st;
          st_S := st_S st; st_ζ := st_ζ st; st_out := st_out st |}.

(** The body of the loop for the index [i], up to and including
    [out[i+1] = ...]. *)
Definition iteration (i : nat) (st : state) : py state :=
  st1 ← (if trimming p then trim_step st else mret st);
  let U := st_U st1 in
  let V := st_V st1 in
  let Z := msub D (st_S st1) in
  let '(Q1, R1) := qr (msub (transpose Z @@ U) (V @@ transpose (Z @@ V) @@ U)) in
  let '(Q2, R2) := qr (msub (Z @@ V) (U @@ transpose U @@ Z @@ V)) in
  let M := block (transpose U @@ Z @@ V) (transpose R1) R2 (zeros_like R2) in
  let '(U_of_M, Sigma, V_of_M) := svd M in
  let U := hstack U Q2 @@ cols r U_of_M in
  let V := hstack V Q1 @@ cols r V_of_M in
  let L := U @@ diag (take r Sigma) @@ transpose V in
  σr ← getitem Sigma r;
  σ0 ← getitem Sigma 0;
  let ζ := β D p * (σr + γ p ^ i * σ0) in
  S ← hard_threshold (msub D L) ζ;
  out ← setitem (st_out st1) (i + 1) (residual L S);
  mret {| st_U := U; st_Sigma := Sigma; st_V := V; st_L := L; st_S := S;
       st_ζ := ζ; st_out := out |}.

(** [for i in range(niter): ...; if out[i+1] < eps: break], with [n]
    indices left, the next one being [i]. *)
Fixpoint loop (n i : nat) (st : state) : py (state * loop_exit) :=
  match n with
  | O => mret (st, Exhausted)
  | S n' =>
      st' ← iteration i st;
      x ← getitem (st_out st') (i + 1);
      if float_lt x (eps p) then mret (st', Converged i)
      else loop n' (S i) st'
  end.

Definition AccAltProj_run : py (state * loop_exit) :=
  st ← AccAltProj_init;
  loop (Z.to_nat (niter p)) 0 st.

(** [return L, S] *)
Definition AccAltProj : py (list ndarray) :=
  '(st, _) ← AccAltProj_run;
  mret [Arr2 (st_L st); Arr2 (st_S st)].
End AccAltProj.

(** * Part II: the notions of the statements *)

(** ** Entries of a thresholded array *)

(** [X[i, j]] when it exists. *)
Definition entry (X : matrix) (i j : nat) : option R :=
  row ← X !! i; row !! j.

(** The entry of [hard_threshold(X, t)] at a position is zero exactly when
    the entry of [X] there is below [t] in absolute value: the property as
    the specification words it. *)
Definition zero_exactly_below (X : matrix) (t : R) (Y : matrix) : Prop :=
  forall i j x y, entry X i j = Some x -> entry Y i j = Some y ->
    (y = 0 <-> Rabs x < t).

(** The same with the entries of [X] that are zero themselves set apart. *)
Definition zero_exactly_below_or_zero (X : matrix) (t : R) (Y : matrix) : Prop :=
  forall i j x y, entry X i j = Some x -> entry Y i j = Some y ->
    (y = 0 <-> x = 0 \/ Rabs x < t).

Definition zero_or_same (X Y : matrix) : Prop :=
  forall i j x, entry X i j = Some x ->
    exists y, entry Y i j = Some y /\ (y = 0 \/ y = x).

(** ** Shapes, entries and orthonormal columns *)

(** [m]-by-[n] arrays *)
Definition well_shaped (m n : nat) (A : matrix) : Prop :=
  length A = m /\ Forall (fun row : vec => length row = n) A.

Definition get (A : matrix) (i j : nat) : R := nth j (nth i A []) 0.

Fixpoint rsum (n : nat) (f : nat -> R) : R :=
  match n with
  | O => 0
  | S n' => rsum n' f + f n'
  end.

(** [A.T @ A] is the identity: the columns of [A] are orthonormal. *)
Definition orthonormal_columns (A : matrix) : Prop :=
  transpose A @@ A = identity (ncols A).

(** ** What the library returns

    The properties of the results of [qr], [svd] and [svds] that the
    examples check and that the statements about [trim] assume. *)

(** [Q, R = qr(A, mode='economic')]: [Q @ R] is [A] and the columns of [Q]
    are orthonormal. *)
Definition is_qr (A Q R : matrix) : Prop :=
  Q @@ R = A /\ orthonormal_columns Q.

(** [(U, s, Vt)] are singular triplets of [A]: [A @ Vt.T = U @ diag(s)] and
    [A.T @ U = Vt.T @ diag(s)], with orthonormal columns in [U] and [Vt.T]
    and non-negative [s]. *)
Definition singular_triplets (A U : matrix) (s : vec) (Vt : matrix) : Prop :=
  A @@ transpose Vt = U @@ diag s /\
  transpose A @@ U = transpose Vt @@ diag s /\
  orthonormal_columns U /\ orthonormal_columns (transpose Vt) /\
  Forall (fun x => 0 <= x) s.

(** The order of the singular values: [svds] returns them smallest first,
    [svd] largest first. *)
Definition ascending (s : vec) : Prop :=
  forall i j a b, (i <= j)%nat -> s !! i = Some a -> s !! j = Some b -> a <= b.

Definition descending (s : vec) : Prop :=
  forall i j a b, (i <= j)%nat -> s !! i = Some a -> s !! j = Some b -> b <= a.

(** ** The rows that trim rescales *)

(** The squared norm of a row, as [np.sum(U**2, axis=1)] computes it. *)
Definition sq_norm (row : vec) : R := sum_list ((fun x => x ^ 2) <$> row).

(** [mu * r / m] for an array [A] of shape [(m, r)] *)
Definition trim_bound (mu : R) (A : matrix) : R :=
  mu * INR (ncols A) / INR (nrows A).

(** The contents of an argument array of [trim] after its masked
    assignment. *)
Definition rescaled (mu : R) (A : matrix) : matrix :=
  rescale_big_rows A (big_rows (row_norm_square A) (trim_bound mu A))
    (row_norm_square A) (trim_bound mu A).

(** * Part III: a library instance and inputs for the examples

    Exact decompositions for the inputs that the examples feed to the
    library: matrices that are diagonal with a non-negative, non-increasing
    diagonal (for the two SVD routines) and matrices of one column (for
    QR). *)

(** [np.diag(A)] for a two-dimensional [A] *)
Definition diagonal (A : matrix) : vec :=
  omap (fun x => x) (imap (fun i (row : vec) => row !! i) A).

Definition diag_svd (A : matrix) : matrix * vec * matrix :=
  (identity (nrows A), diagonal A, identity (ncols A)).

(** The [k] leading singular triplets, smallest singular value first, which
    is the order in which [svds] returns them.  The examples use it on
    matrices that are not zero only: on an all-zero matrix [svds] raises. *)
Definition diag_svds (A : matrix) (k : nat) : matrix * vec * matrix :=
  (transpose (reverse (take k (identity (nrows A)))),
   reverse (take k (diagonal A)),
   reverse (take k (identity (ncols A)))).

Definition column_qr (A : matrix) : matrix * matrix :=
  if decide (ncols A = 1%nat) then
    if Req_dec_T (norm_fro A) 0 then (cols 1 (identity (nrows A)), [[0]])
    else (mmap (fun x => x / norm_fro A) A, [[norm_fro A]])
  else (A, identity (ncols A)).

Definition diag_lib : LinAlg :=
  {| svds := diag_svds; svd := diag_svd; qr := column_qr |}.

(** ** [D = [[1, 0], [0, 0]]] with rank 1 *)

Abbreviation D_e11 := ([[1; 0]; [0; 0]] : matrix).

Definition e11_params (n : option Z) (e : option R) : params :=
  {| p_niter := n; p_eps := e; p_β := None; p_β_init := None;
     p_γ := None; p_µ := None; p_trimming := None |}.

(** [{'eps': 0.0}] *)
Definition params_eps0 : params := e11_params None (Some 0).

Definition e11_state (Sigma : vec) (ζ : R) (out : list float64) : state :=
  {| st_U := [[1]; [0]]; st_Sigma := Sigma; st_V := [[1]; [0]];
     st_L := D_e11; st_S := [[0; 0]; [0; 0]]; st_ζ := ζ; st_out := out |}.

(** ** [trim] on [U = V = [[1], [0]]] with [mu = 0.5] *)

Abbreviation e1_col := ([[1]; [0]] : matrix).

(** The store of the example: [U] at 1 and [V] at 2, both [[1], [0]]. *)
Definition e1_heap : heap := <[2%positive := e1_col]> {[1%positive := e1_col]}.

Definition e1_locals : trim_locals :=
  {| Q1 := e1_col; R1 := [[1 / 4]]; Q2 := e1_col; R2 := [[1 / 4]];
     U_temp := [[1]]; Sig_out := [1 / 4 * (1 / 4)]; V_temp := [[1]];
     U_out := e1_col; V_out := e1_col |}.

Definition e1_heap_after : heap :=
  <[2%positive := [[1 / 4]; [0]]]> (<[1%positive := [[1 / 4]; [0]]]> e1_heap).

Definition trim_params : params :=
  {| p_niter := None; p_eps := None; p_β := None; p_β_init := None;
     p_γ := None; p_µ := Some [1 / 2]; p_trimming := Some true |}.

(** ** [D = diag(2, 1, 0)] with rank 2 *)

Abbreviation D_210 := ([[2; 0; 0]; [0; 1; 0]; [0; 0; 0]] : matrix).

Definition params_210 : params :=
  {| p_niter := None; p_eps := None; p_β := Some (1 / 2); p_β_init := Some 2;
     p_γ := None; p_µ := None; p_trimming := None |}.

Definition state_210 : state :=
  {| st_U := [[0; 1]; [1; 0]; [0; 0]]; st_Sigma := [1; 2];
     st_V := [[0; 1]; [1; 0]; [0; 0]];
     st_L := D_210; st_S := [[0; 0; 0]; [0; 0; 0]; [0; 0; 0]];
     st_ζ := 1 / 2;
     st_out := <[0%nat := residual D_210 D_210 [[0; 0; 0]; [0; 0; 0]; [0; 0; 0]]]>
                 (replicate 100 (Finite 0)) |}.

(** The sparse part that the examples end with *)
Abbreviation Z22 := ([[0; 0]; [0; 0]] : matrix).

(** * Part III-b: the glue around the engine

    [stack_images], the frames that [save_output] cuts out of [L] and [S]
    and binarises, and [evaluate].  Reading and writing image files, and
    [compute_metrics] with its scikit-learn scores, are parameters. *)

(** ** Reshaping *)

(** The rows of a C-ordered array of shape [(rows, cols)] over the flat
    sequence of its elements. *)
Fixpoint chunks {A : Type} (rows cols : nat) (flat : list A) : list (list A) :=
  match rows with
  | O => []
  | S rows' => take cols flat :: chunks rows' cols (drop cols flat)
  end.

(** [a.reshape(rows, cols)], [flat] being the elements of [a] in C order:
    NumPy raises [ValueError] when the sizes differ. *)
Definition np_reshape {A : Type} (flat : list A) (rows cols : nat)
  : py (list (list A)) :=
  if decide (length flat = (rows * cols)%nat) then Returned (chunks rows cols flat)
  else Raised ValueError.

#[global] Instance well_shaped_dec (m n : nat) (A : matrix) :
  Decision (well_shaped m n A).
Proof. unfold well_shaped. apply _. Defined.

(** ** stack_images *)

(** [np.stack(images, axis=-1)] for images of the shape [(n, m)]:
    the element at [(a, b, f)] is [images[f][a, b]]. *)
Definition np_stack_last (n m : nat) (images : list matrix)
  : list (list (list R)) :=
  (fun a => (fun b => (fun img => get img a b) <$> images) <$> seq 0 m) <$> seq 0 n.

(** def stack_images(images): [np.stack] raises [ValueError] for an empty
    list and for images of different shapes. *)
Definition stack_images (images : list matrix) : py (matrix * nat * nat * nat) :=
  match images with
  | [] => Raised ValueError
  | img0 :: _ =>
      let n := nrows img0 in
      let m := ncols img0 in
      let k := length images in
      if decide (Forall (well_shaped n m) images) then
        let stacked_images := np_stack_last n m images in
        images_matrix ← np_reshape (concat (concat stacked_images)) (n * m) k;
        mret (images_matrix, n, m, k)
      else Raised ValueError
  end.

(** ** save_output *)

(** [L_frames = L.reshape((n*m, k))] and, for a frame index [i] of
    [range(k)], [L_frame = L_frames[:, i].reshape(n, m)]; the same
    statements cut [S_frame] out of [S]. *)
Definition L_frame (L : matrix) (n m k i : nat) : py matrix :=
  L_frames ← np_reshape (concat L) (n * m) k;
  if decide (i < k)%nat then
    np_reshape ((fun row : vec => nth i row 0) <$> L_frames) n m
  else Raised IndexError.

(** [A[cond(A)] = v] on an array of integers. *)
Definition masked_assign (cond : Z -> bool) (v : Z) (A : list (list Z))
  : list (list Z) :=
  (fun row : list Z => (fun x => if cond x then v else x) <$> row) <$> A.

(** The three assignments that turn the [uint8] frame [S_frame] into the
    binary mask:
    [S_frame[S_frame>220] = 0; S_frame[S_frame>=50] = 255;
     S_frame[S_frame<50] = 0]. *)
Definition binary_mask (S_frame : list (list Z)) : list (list Z) :=
  let S_frame := masked_assign (fun x => bool_decide (220 < x)%Z) 0 S_frame in
  let S_frame := masked_assign (fun x => bool_decide (50 <= x)%Z) 255 S_frame in
  masked_assign (fun x => bool_decide (x < 50)%Z) 0 S_frame.

(** ** evaluate *)

Record metrics : Type := {
  precision : R;
  recall : R;
  f1_score : R
}.

(** An image as [cv2.cvtColor(cv2.imread(path), cv2.COLOR_BGR2GRAY)]
    gives it, and [compute_metrics(binary_mask, ground_truth)]. *)
Class Imaging : Type := {
  imread_gray : String.string -> py (list (list Z));
  compute_metrics : list (list Z) -> list (list Z) -> py metrics
}.

(** [l[i]] on a Python list: a negative index counts from the end. *)
Definition py_getitem {A : Type} (l : list A) (i : Z) : py A :=
  if decide (0 <= i)%Z then getitem l (Z.to_nat i)
  else if decide (- Z.of_nat (length l) <= i)%Z
       then getitem l (Z.to_nat (Z.of_nat (length l) + i))
       else Raised IndexError.

(** [range(a, b)] *)
Definition py_range (a b : Z) : list Z :=
  (fun j => (a + Z.of_nat j)%Z) <$> seq 0 (Z.to_nat (b - a)).

(** [for x in xs: acc = body(acc, x)] *)
Fixpoint for_each {A B : Type} (body : B -> A -> py B) (xs : list A) (acc : B)
  : py B :=
  match xs with
  | [] => mret acc
  | x :: xs' => acc' ← body acc x; for_each body xs' acc'
  end.

Definition add_metrics (sum_metrics m : metrics) : metrics :=
  {| precision := precision sum_metrics + precision m;
     recall := recall sum_metrics + recall m;
     f1_score := f1_score sum_metrics + f1_score m |}.

Section Evaluate.
Context `{Imaging}.

(** The body of the loop of [evaluate] for the frame index [i]. *)
Definition evaluate_frame (downsampled_groundtruths binarymasks : list String.string)
    (sum_metrics : metrics) (i : Z) : py metrics :=
  gt_path ← py_getitem downsampled_groundtruths i;
  ground_truth ← imread_gray gt_path;
  mask_path ← py_getitem binarymasks i;
  binary_mask ← imread_gray mask_path;
  m ← compute_metrics binary_mask ground_truth;
  mret (add_metrics sum_metrics m).

(** def evaluate(downsampled_groundtruths, binarymasks, roi): [roi] is
    [None] or a list of integers.  The divisor [roi[1]-roi[0]] is zero only
    when the loop has not run, and then [0 / 0] on Python integers raises
    [ZeroDivisionError]. *)
Definition evaluate (downsampled_groundtruths binarymasks : list String.string)
    (roi : option (list Z)) : py metrics :=
  let sum_metrics := {| precision := 0; recall := 0; f1_score := 0 |} in
  let roi := default [1%Z; (Z.of_nat (length downsampled_groundtruths) + 1)%Z] roi in
  roi0 ← getitem roi 0;
  roi1 ← getitem roi 1;
  sum_metrics ← for_each (evaluate_frame downsampled_groundtruths binarymasks)
                  (py_range (roi0 - 1) (roi1 - 1)) sum_metrics;
  if decide (roi1 - roi0 = 0)%Z then Raised ZeroDivisionError
  else mret {| precision := precision sum_metrics / IZR (roi1 - roi0);
               recall := recall sum_metrics / IZR (roi1 - roi0);
               f1_score := f1_score sum_metrics / IZR (roi1 - roi0) |}.
End Evaluate.

(** An instance for the examples: every file holds the frame [[0, 255]],
    which as a mask scores 1 against itself as ground truth. *)
Definition same_frames : Imaging :=
  {| imread_gray := fun _ => Returned [[0%Z; 255%Z]];
     compute_metrics := fun _ _ =>
       Returned {| precision := 1; recall := 1; f1_score := 1 |} |}.

(** Trimming switched on, with an empty pair of bounds. *)
Definition params_no_bound : params :=
  {| p_niter := None; p_eps := None; p_β := None; p_β_init := None;
     p_γ := None; p_µ := Some []; p_trimming := Some true |}.

(** Every score of [m] lies between [lo] and [hi]. *)
Definition metrics_between (lo hi : R) (m : metrics) : Prop :=
  lo <= precision m <= hi /\ lo <= recall m <= hi /\ lo <= f1_score m <= hi.

(** What the three masked assignments of [save_output] amount to. *)
Definition in_band (x : Z) : Z :=
  if bool_decide (50 <= x <= 220)%Z then 255%Z else 0%Z.

(** Two lists of file names for the examples. *)
Module Files.
Import String.
Definition groundtruths : list string := ["gt00001.png"%string; "gt00002.png"%string].
Definition masks : list string := ["BM00001.png"%string; "BM00002.png"%string].
End Files.

(** An instance whose files cannot be read. *)
Definition no_files : Imaging :=
  {| imread_gray := fun _ => Raised ValueError;
     compute_metrics := fun _ _ => Raised ValueError |}.

(** * Part IV: lemmas *)

(** ** Outcomes and buffers *)

Lemma bind_inv {A B : Type} (c : py A) (k : A -> py B) (b : B) :
  c ≫= k = Returned b -> exists a, c = Returned a /\ k a = Returned b.
Proof. destruct c as [a|e]; [|discriminate]. intros Hk. now exists a. Qed.

Lemma bind_raises {A B : Type} (c : py A) (k : A -> py B) (e : exn) :
  c ≫= k = Raised e ->
  c = Raised e \/ exists a, c = Returned a /\ k a = Raised e.
Proof.
  destruct c as [a|e']; intros Hk.
  - right. now exists a.
  - left. injection Hk as ->. reflexivity.
Qed.

Lemma getitem_raises {A : Type} (l : list A) (i : nat) (e : exn) :
  getitem l i = Raised e -> e = IndexError.
Proof. unfold getitem. destruct (l !! i); [discriminate|]. now intros [= <-]. Qed.

Lemma setitem_raises {A : Type} (l : list A) (i : nat) (v : A) (e : exn) :
  setitem l i v = Raised e -> e = IndexError.
Proof. unfold setitem. destruct (decide _); [discriminate|]. now intros [= <-]. Qed.

Lemma setitem_inv {A : Type} (l l' : list A) (i : nat) (v : A) :
  setitem l i v = Returned l' ->
  (i < length l)%nat /\ l' = <[i:=v]> l.
Proof.
  unfold setitem. destruct (decide (i < length l)%nat); [|discriminate].
  intros [= <-]. auto.
Qed.

Lemma setitem_lt {A} (l : list A) i v :
  (i < length l)%nat -> setitem l i v = Returned (<[i:=v]> l).
Proof. intros Hi. unfold setitem. now destruct (decide _). Qed.

Lemma setitem_ge {A} (l : list A) i v :
  (length l <= i)%nat -> setitem l i v = Raised IndexError.
Proof. intros Hi. unfold setitem. destruct (decide _); [lia|reflexivity]. Qed.

Lemma getitem_0 {A} (x : A) l : getitem (x :: l) 0 = Returned x.
Proof. reflexivity. Qed.

Lemma getitem_1 {A} (x y : A) l : getitem (x :: y :: l) 1 = Returned y.
Proof. reflexivity. Qed.

Lemma np_empty_nonneg n :
  (0 <= n)%Z -> np_empty n = Returned (replicate (Z.to_nat n) (Finite 0)).
Proof. intros Hn. unfold np_empty. destruct (decide _); [lia|reflexivity]. Qed.

Lemma py_div_inv a m x :
  py_div a m = Returned x -> (0 < m)%nat /\ x = a / INR m.
Proof.
  unfold py_div. destruct (decide (m = 0%nat)); [discriminate|].
  intros [= <-]. split; [lia|reflexivity].
Qed.

Lemma py_div_pos a m : (0 < m)%nat -> py_div a m = Returned (a / INR m).
Proof. intros Hm. unfold py_div. destruct (decide _); [lia|reflexivity]. Qed.

(** ** Thresholding *)

Lemma hard_threshold_elt_keep t x : t <= Rabs x -> hard_threshold_elt t x = x.
Proof.
  intros H. unfold hard_threshold_elt, ge_mask.
  destruct (Rle_dec t (Rabs x)); [lra | contradiction].
Qed.

Lemma hard_threshold_elt_drop t x : Rabs x < t -> hard_threshold_elt t x = 0.
Proof.
  intros H. unfold hard_threshold_elt, ge_mask.
  destruct (Rle_dec t (Rabs x)); lra.
Qed.

Lemma hard_threshold_elt_cases t x :
  (t <= Rabs x /\ hard_threshold_elt t x = x) \/
  (Rabs x < t /\ hard_threshold_elt t x = 0).
Proof.
  destruct (Rle_lt_dec t (Rabs x)) as [Hle|Hlt].
  - left. split; [assumption|]. now apply hard_threshold_elt_keep.
  - right. split; [assumption|]. now apply hard_threshold_elt_drop.
Qed.

Lemma hard_threshold_elt_0 t : hard_threshold_elt t 0 = 0.
Proof. unfold hard_threshold_elt. lra. Qed.

Lemma mmap_id (f : R -> R) (X : matrix) :
  (forall x, f x = x) -> mmap f X = X.
Proof.
  intros Hf. unfold mmap.
  induction X as [|row X IH]; [reflexivity|].
  rewrite fmap_cons, IH. f_equal.
  induction row as [|x row IHr]; [reflexivity|].
  now rewrite fmap_cons, Hf, IHr.
Qed.

Lemma mmap_ext f g (X : matrix) : (forall x, f x = g x) -> mmap f X = mmap g X.
Proof.
  intros Hfg. unfold mmap. apply list_fmap_ext. intros _ row _.
  apply list_fmap_ext. intros _ x _. apply Hfg.
Qed.

Lemma entry_mmap f X i j : entry (mmap f X) i j = f <$> entry X i j.
Proof.
  unfold entry, mmap. rewrite list_lookup_fmap.
  destruct (X !! i) as [row|]; [|reflexivity].
  cbn. now rewrite list_lookup_fmap.
Qed.

Lemma hard_threshold_zero X : hard_threshold X 0 = Returned X.
Proof.
  unfold hard_threshold. f_equal. apply mmap_id.
  intros x. apply hard_threshold_elt_keep, Rabs_pos.
Qed.

Lemma hard_threshold_negative X t : t < 0 -> hard_threshold X t = Returned X.
Proof.
  intros Ht. unfold hard_threshold. f_equal. apply mmap_id.
  intros x. apply hard_threshold_elt_keep.
  pose proof (Rabs_pos x). lra.
Qed.

Lemma soft_threshold_elt_negative t x :
  t < 0 -> soft_threshold_elt t x = sign x * (Rabs x - t).
Proof.
  intros Ht. unfold soft_threshold_elt. f_equal.
  apply Rmax_left. pose proof (Rabs_pos x). lra.
Qed.

(** ** What trim computes and stores *)

Section TrimFacts.
Context `{LinAlg}.
Variables (pU pV : loc) (Sig : matrix) (mu_U mu_V : R) (h : heap).

(** What [trim] has computed and stored when it returns. *)
Lemma trim_body_inv f h' :
  trim_body pU Sig pV mu_U mu_V h = Returned (f, h') ->
  let h1 := <[pU := rescaled mu_U (h !!! pU)]> h in
  (0 < nrows (h !!! pU))%nat /\ (0 < nrows (h1 !!! pV))%nat /\
  h' = <[pV := rescaled mu_V (h1 !!! pV)]> h1 /\
  (Q1 f, R1 f) = qr (h' !!! pU) /\
  (Q2 f, R2 f) = qr (h' !!! pV) /\
  (U_temp f, Sig_out f, V_temp f) = svd (R1 f @@ Sig @@ transpose (R2 f)) /\
  U_out f = Q1 f @@ U_temp f /\
  V_out f = Q2 f @@ V_temp f.
Proof.
  unfold trim_body. intros Hb.
  apply bind_inv in Hb as (bound_U & HbU & Hb).
  apply py_div_inv in HbU as [HmU ->].
  apply bind_inv in Hb as (bound_V & HbV & Hb).
  apply py_div_inv in HbV as [HmV ->].
  destruct (qr _) as [Q1' R1'] eqn:Hq1 in Hb.
  destruct (qr _) as [Q2' R2'] eqn:Hq2 in Hb.
  destruct (svd _) as [[Ut So] Vt] eqn:Hsvd in Hb.
  injection Hb as <- <-. cbn.
  repeat split; try assumption; try reflexivity; symmetry; assumption.
Qed.

Lemma trim_inv U' V' h' :
  trim pU Sig pV mu_U mu_V h = Returned (U', V', h') ->
  exists f, trim_body pU Sig pV mu_U mu_V h = Returned (f, h') /\
    U' = U_out f /\ V' = V_out f.
Proof.
  unfold trim. intros Ht.
  apply bind_inv in Ht as ([f h1] & Hb & Ht).
  injection Ht as <- <- <-. now exists f.
Qed.

(** With distinct argument arrays the assignment to [V] sees the
    caller's [V], and the two rescaled arrays end in the store. *)
Lemma trim_body_store f h' :
  pU <> pV ->
  trim_body pU Sig pV mu_U mu_V h = Returned (f, h') ->
  h' = <[pV := rescaled mu_V (h !!! pV)]> (<[pU := rescaled mu_U (h !!! pU)]> h) /\
  h' !!! pU = rescaled mu_U (h !!! pU) /\
  h' !!! pV = rescaled mu_V (h !!! pV).
Proof.
  intros Hne Hb. apply trim_body_inv in Hb as (_ & _ & -> & _).
  rewrite (lookup_total_insert_ne _ pU pV) by exact Hne.
  split; [reflexivity|]. split.
  - rewrite lookup_total_insert_ne by auto. apply lookup_total_insert_eq.
  - apply lookup_total_insert_eq.
Qed.
End TrimFacts.

Section TrimEval.
Context `{LinAlg}.

(** [trim] on a store whose argument arrays are not empty. *)
Lemma trim_body_eval pU Sig pV mu_U mu_V (h : heap) :
  let h1 := <[pU := rescaled mu_U (h !!! pU)]> h in
  let h2 := <[pV := rescaled mu_V (h1 !!! pV)]> h1 in
  (0 < nrows (h !!! pU))%nat -> (0 < nrows (h1 !!! pV))%nat ->
  trim_body pU Sig pV mu_U mu_V h =
  Returned
    ({| Q1 := (qr (h2 !!! pU)).1; R1 := (qr (h2 !!! pU)).2;
        Q2 := (qr (h2 !!! pV)).1; R2 := (qr (h2 !!! pV)).2;
        U_temp := (svd ((qr (h2 !!! pU)).2 @@ Sig @@ transpose (qr (h2 !!! pV)).2)).1.1;
        Sig_out := (svd ((qr (h2 !!! pU)).2 @@ Sig @@ transpose (qr (h2 !!! pV)).2)).1.2;
        V_temp := (svd ((qr (h2 !!! pU)).2 @@ Sig @@ transpose (qr (h2 !!! pV)).2)).2;
        U_out := (qr (h2 !!! pU)).1 @@
                 (svd ((qr (h2 !!! pU)).2 @@ Sig @@ transpose (qr (h2 !!! pV)).2)).1.1;
        V_out := (qr (h2 !!! pV)).1 @@
                 (svd ((qr (h2 !!! pU)).2 @@ Sig @@ transpose (qr (h2 !!! pV)).2)).2 |},
     h2).
Proof.
  intros h1 h2 HmU HmV. unfold trim_body.
  rewrite (py_div_pos _ _ HmU). cbn [mbind py_bind].
  fold (trim_bound mu_U (h !!! pU)). fold (rescaled mu_U (h !!! pU)). fold h1.
  rewrite (py_div_pos _ _ HmV). cbn [mbind py_bind].
  fold (trim_bound mu_V (h1 !!! pV)). fold (rescaled mu_V (h1 !!! pV)). fold h2.
  destruct (qr (h2 !!! pU)) as [Q1' R1'].
  destruct (qr (h2 !!! pV)) as [Q2' R2']. cbn [fst snd].
  destruct (svd _) as [[Ut So] Vt]. reflexivity.
Qed.
End TrimEval.

Section TrimStep.
Context `{LinAlg}.

(** The trimming statement does not touch [S] and [out]. *)
Lemma trim_step_frame (r : nat) (p : params) (st st1 : state) :
  trim_step r p st = Returned st1 ->
  st_S st1 = st_S st /\ st_out st1 = st_out st.
Proof.
  unfold trim_step. intros Hstep.
  apply bind_inv in Hstep as (mu_U & _ & Hstep).
  apply bind_inv in Hstep as (mu_V & _ & Hstep).
  apply bind_inv in Hstep as ([[U' V'] h'] & _ & Hstep).
  injection Hstep as <-. auto.
Qed.

(** The statement [if trimming: U, V = trim(...)]. *)
Lemma trimming_statement_inv (r : nat) (p : params) (st st1 : state) :
  (if trimming p then trim_step r p st else mret st) = Returned st1 ->
  st_S st1 = st_S st /\ st_out st1 = st_out st.
Proof.
  destruct (trimming p).
  - apply trim_step_frame.
  - intros [= <-]. auto.
Qed.
End TrimStep.

(** ** The loop and its trace buffer *)

Section Loop.
Context `{LinAlg}.
Variables (D : matrix) (r : nat) (p : params).

(** An iteration that completes has written [out[i+1]], which therefore
    is inside the buffer, and has not resized the buffer. *)
Lemma iteration_out i st st' :
  iteration D r p i st = Returned st' ->
  (i + 1 < length (st_out st))%nat /\
  st_out st' = <[(i + 1)%nat := residual D (st_L st') (st_S st')]> (st_out st).
Proof.
  unfold iteration. intros Hit.
  apply bind_inv in Hit as (st1 & Hst1 & Hit). cbv zeta in Hit.
  apply trimming_statement_inv in Hst1 as [_ Hout1]. rewrite Hout1 in Hit.
  destruct (qr _) as [Q1' R1'] in Hit.
  destruct (qr _) as [Q2' R2'] in Hit.
  destruct (svd _) as [[U_of_M Sigma'] V_of_M] in Hit.
  apply bind_inv in Hit as (σr & _ & Hit).
  apply bind_inv in Hit as (σ0 & _ & Hit).
  apply bind_inv in Hit as (S' & HS & Hit).
  apply bind_inv in Hit as (out' & Hout & Hit).
  injection Hit as <-. cbn.
  apply setitem_inv in Hout as [Hlt ->]. auto.
Qed.

Lemma iteration_out_length i st st' :
  iteration D r p i st = Returned st' ->
  length (st_out st') = length (st_out st).
Proof.
  intros Hit. apply iteration_out in Hit as [_ ->].
  apply length_insert.
Qed.

Lemma iteration_out_lookup i st st' :
  iteration D r p i st = Returned st' ->
  getitem (st_out st') (i + 1) = Returned (residual D (st_L st') (st_S st')).
Proof.
  intros Hit. apply iteration_out in Hit as [Hlt ->].
  unfold getitem. now rewrite list_lookup_insert_eq.
Qed.

(** The loop cannot use up its range: the last index [i = niter - 1]
    writes [out[niter]], one past the end of [np.empty(niter)]. *)
Lemma loop_not_exhausted n i st st' :
  (0 < n)%nat -> length (st_out st) = (i + n)%nat ->
  loop D r p n i st <> Returned (st', Exhausted).
Proof.
  revert i st. induction n as [|n IH]; intros i st Hn Hlen Hloop; [lia|].
  cbn [loop] in Hloop.
  apply bind_inv in Hloop as (st1 & Hit & Hloop).
  apply bind_inv in Hloop as (x & _ & Hloop).
  destruct (float_lt x (eps p)); [discriminate|].
  pose proof (iteration_out _ _ _ Hit) as [Hlt _].
  pose proof (iteration_out_length _ _ _ Hit) as Hlen1.
  apply (IH (S i) st1); [lia|lia|exact Hloop].
Qed.

(** A [break] in iteration [k] leaves the state of that iteration, whose
    residual was below [eps] and was stored inside the buffer. *)
Lemma loop_converged n i st st' k :
  loop D r p n i st = Returned (st', Converged k) ->
  (i <= k)%nat /\ (k + 1 < length (st_out st))%nat /\
  float_lt (residual D (st_L st') (st_S st')) (eps p) = true.
Proof.
  revert i st. induction n as [|n IH]; intros i st Hloop; [discriminate|].
  cbn [loop] in Hloop.
  apply bind_inv in Hloop as (st1 & Hit & Hloop).
  rewrite (iteration_out_lookup _ _ _ Hit) in Hloop. cbn in Hloop.
  pose proof (iteration_out _ _ _ Hit) as [Hlt _].
  pose proof (iteration_out_length _ _ _ Hit) as Hlen1.
  destruct (float_lt (residual D (st_L st1) (st_S st1)) (eps p)) eqn:Hres.
  - injection Hloop as <- <-. auto with lia.
  - apply IH in Hloop as (Hk & Hlen & Hres'). rewrite Hlen1 in Hlen.
    auto with lia.
Qed.


Lemma init_out st :
  AccAltProj_init D r p = Returned st ->
  (0 < Z.to_nat (niter p))%nat /\
  st_out st = <[0%nat := residual D (st_L st) (st_S st)]>
                (replicate (Z.to_nat (niter p)) (Finite 0)).
Proof.
  unfold AccAltProj_init. intros Hin.
  apply bind_inv in Hin as (σ & _ & Hin).
  apply bind_inv in Hin as (S0 & _ & Hin).
  destruct (svds _ r) as [[U0 Sigma0] Vt0] in Hin.
  apply bind_inv in Hin as (σ0 & _ & Hin).
  apply bind_inv in Hin as (S1 & HS1 & Hin).
  apply bind_inv in Hin as (out0 & Hemp & Hin).
  apply bind_inv in Hin as (out1 & Hset & Hin).
  injection Hin as <-. cbn.
  unfold np_empty in Hemp. destruct (decide _); [discriminate|].
  injection Hemp as <-.
  apply setitem_inv in Hset as [Hlt ->].
  rewrite length_replicate in Hlt. auto.
Qed.

Lemma run_not_exhausted st :
  AccAltProj_run D r p <> Returned (st, Exhausted).
Proof.
  unfold AccAltProj_run. intros Hrun.
  apply bind_inv in Hrun as (st0 & Hin & Hloop).
  apply init_out in Hin as [Hpos Hout].
  revert Hloop. apply loop_not_exhausted; [exact Hpos|].
  rewrite Hout, length_insert, length_replicate. lia.
Qed.

Lemma run_converged st k :
  AccAltProj_run D r p = Returned (st, Converged k) ->
  (Z.of_nat k + 1 < niter p)%Z /\
  float_lt (residual D (st_L st) (st_S st)) (eps p) = true.
Proof.
  unfold AccAltProj_run. intros Hrun.
  apply bind_inv in Hrun as (st0 & Hin & Hloop).
  apply init_out in Hin as [Hpos Hout].
  apply loop_converged in Hloop as (_ & Hk & Hres). split; [|exact Hres].
  rewrite Hout, length_insert, length_replicate in Hk. lia.
Qed.

(** Without trimming and with [niter >= 0], the only exception of the
    model is the [IndexError] of an index out of range. *)
Lemma init_raises e :
  (0 <= niter p)%Z -> AccAltProj_init D r p = Raised e -> e = IndexError.
Proof.
  unfold AccAltProj_init, hard_threshold. intros Hn Hin.
  apply bind_raises in Hin as [Hg|(σ & _ & Hin)]; [now apply getitem_raises in Hg|].
  cbn [mbind py_bind] in Hin.
  destruct (svds _ r) as [[U0 Sigma0] Vt0] in Hin.
  apply bind_raises in Hin as [Hg|(σ0 & _ & Hin)]; [now apply getitem_raises in Hg|].
  cbn [mbind py_bind] in Hin.
  apply bind_raises in Hin as [He|(out0 & _ & Hin)].
  { unfold np_empty in He. destruct (decide _); [lia|discriminate]. }
  apply bind_raises in Hin as [Hs|(out1 & _ & Hin)]; [now apply setitem_raises in Hs|].
  discriminate Hin.
Qed.

Lemma iteration_raises i st e :
  trimming p = false -> iteration D r p i st = Raised e -> e = IndexError.
Proof.
  unfold iteration, hard_threshold. intros Ht Hit. rewrite Ht in Hit.
  cbn [mbind py_bind mret py_ret] in Hit. cbv zeta in Hit.
  destruct (qr _) as [Q1' R1'] in Hit.
  destruct (qr _) as [Q2' R2'] in Hit.
  destruct (svd _) as [[U_of_M Sigma'] V_of_M] in Hit.
  apply bind_raises in Hit as [Hg|(σr & _ & Hit)]; [now apply getitem_raises in Hg|].
  apply bind_raises in Hit as [Hg|(σ0 & _ & Hit)]; [now apply getitem_raises in Hg|].
  cbn [mbind py_bind] in Hit.
  apply bind_raises in Hit as [Hs|(out1 & _ & Hit)]; [now apply setitem_raises in Hs|].
  discriminate Hit.
Qed.

Lemma loop_raises n i st e :
  trimming p = false -> loop D r p n i st = Raised e -> e = IndexError.
Proof.
  intros Ht. revert i st. induction n as [|n IH]; intros i st Hloop; [discriminate|].
  cbn [loop] in Hloop.
  apply bind_raises in Hloop as [Hit|(st1 & _ & Hloop)];
    [now apply iteration_raises in Hit|].
  apply bind_raises in Hloop as [Hg|(x & _ & Hloop)]; [now apply getitem_raises in Hg|].
  destruct (float_lt x (eps p)); [discriminate|]. now apply IH in Hloop.
Qed.

Lemma run_raises e :
  trimming p = false -> (0 <= niter p)%Z ->
  AccAltProj_run D r p = Raised e -> e = IndexError.
Proof.
  unfold AccAltProj_run. intros Ht Hn Hrun.
  apply bind_raises in Hrun as [Hin|(st & _ & Hloop)].
  - now apply init_raises in Hin.
  - now apply loop_raises in Hloop.
Qed.
End Loop.

(** ** Matrix algebra on lists of rows *)

Lemma rsum_ext n f g :
  (forall k, (k < n)%nat -> f k = g k) -> rsum n f = rsum n g.
Proof.
  induction n as [|n IH]; intros Hfg; [reflexivity|].
  cbn. rewrite IH, Hfg by auto with lia. reflexivity.
Qed.

Lemma rsum_plus n f g : rsum n (fun k => f k + g k) = rsum n f + rsum n g.
Proof. induction n as [|n IH]; cbn; [lra|rewrite IH; lra]. Qed.

Lemma rsum_scal_l n c f : rsum n (fun k => c * f k) = c * rsum n f.
Proof. induction n as [|n IH]; cbn; [lra|rewrite IH; lra]. Qed.

Lemma rsum_scal_r n c f : rsum n (fun k => f k * c) = rsum n f * c.
Proof. induction n as [|n IH]; cbn; [lra|rewrite IH; lra]. Qed.

Lemma rsum_zero n : rsum n (fun _ => 0) = 0.
Proof. induction n as [|n IH]; cbn; [reflexivity|rewrite IH; lra]. Qed.

Lemma rsum_swap m n (f : nat -> nat -> R) :
  rsum m (fun i => rsum n (fun j => f i j)) =
  rsum n (fun j => rsum m (fun i => f i j)).
Proof.
  induction m as [|m IH]; cbn.
  - now rewrite rsum_zero.
  - now rewrite rsum_plus, IH.
Qed.

Lemma rsum_shift n f : rsum (S n) f = f 0%nat + rsum n (fun k => f (S k)).
Proof.
  induction n as [|n IH]; [cbn; lra|].
  change (rsum (S (S n)) f) with (rsum (S n) f + f (S n)).
  rewrite IH. cbn. lra.
Qed.

(** A sum that a Kronecker delta collapses. *)
Lemma rsum_delta n i f :
  (i < n)%nat ->
  rsum n (fun k => (if decide (i = k) then 1 else 0) * f k) = f i.
Proof.
  induction n as [|n IH]; intros Hi; [lia|]. cbn.
  destruct (decide (i = n)) as [->|Hne].
  - rewrite (rsum_ext n _ (fun _ => 0)), rsum_zero; [lra|].
    intros k Hk. destruct (decide (n = k)); [lia|lra].
  - rewrite IH by lia. lra.
Qed.

Lemma dot_cons x y u v : dot (x :: u) (y :: v) = x * y + dot u v.
Proof. reflexivity. Qed.

Lemma dot_rsum (u v : vec) n :
  length u = n -> length v = n ->
  dot u v = rsum n (fun k => nth k u 0 * nth k v 0).
Proof.
  revert u v. induction n as [|n IH]; intros u v Hu Hv.
  - destruct u; [reflexivity|discriminate].
  - destruct u as [|x u]; [discriminate|]. destruct v as [|y v]; [discriminate|].
    rewrite dot_cons, rsum_shift. cbn [nth]. f_equal.
    apply IH; cbn in *; lia.
Qed.

Lemma well_shaped_row m n A i :
  well_shaped m n A -> (i < m)%nat -> length (nth i A []) = n.
Proof.
  intros [Hm Hrows] Hi.
  destruct (lookup_lt_is_Some_2 A i) as [row Hrow]; [lia|].
  rewrite (nth_lookup_Some _ _ _ _ Hrow).
  rewrite Forall_forall in Hrows. apply Hrows.
  now apply list_elem_of_lookup_2 with i.
Qed.

Lemma matrix_ext m n (A B : matrix) :
  well_shaped m n A -> well_shaped m n B ->
  (forall i j, (i < m)%nat -> (j < n)%nat -> get A i j = get B i j) ->
  A = B.
Proof.
  intros HA HB Hget.
  apply (list_eq_same_length _ _ m); [apply HB|apply HA|].
  intros i rowA rowB Hi HrA HrB.
  pose proof (well_shaped_row _ _ _ i HA Hi) as HlA.
  pose proof (well_shaped_row _ _ _ i HB Hi) as HlB.
  specialize (Hget i). unfold get in Hget.
  rewrite (nth_lookup_Some _ _ _ _ HrA) in Hget, HlA.
  rewrite (nth_lookup_Some _ _ _ _ HrB) in Hget, HlB.
  apply (list_eq_same_length _ _ n); [assumption..|].
  intros j x y Hj Hx Hy. specialize (Hget j Hi Hj).
  now rewrite (nth_lookup_Some _ _ _ _ Hx), (nth_lookup_Some _ _ _ _ Hy) in Hget.
Qed.

Lemma nth_fmap {A B : Type} (f : A -> B) (l : list A) (i : nat) (d : B) (d' : A) :
  (i < length l)%nat -> nth i (f <$> l) d = f (nth i l d').
Proof.
  intros Hi. destruct (lookup_lt_is_Some_2 l i Hi) as [x Hx].
  rewrite (nth_lookup_Some _ _ _ _ Hx).
  apply nth_lookup_Some. now rewrite list_lookup_fmap, Hx.
Qed.

Lemma well_shaped_ncols m n A :
  well_shaped m n A -> (0 < m)%nat -> ncols A = n.
Proof.
  intros [Hm Hrows] Hpos. destruct A as [|row A]; [cbn in Hm; lia|].
  cbn. now inversion Hrows.
Qed.

Lemma transpose_rows n (A : matrix) :
  Forall (fun row : vec => length row = n) A ->
  length (foldr (zip_with cons) (replicate n []) A) = n /\
  forall i, (i < n)%nat ->
    nth i (foldr (zip_with cons) (replicate n []) A) [] =
    (fun row : vec => nth i row 0) <$> A.
Proof.
  induction 1 as [|row A Hrow HA [IHlen IHnth]]; cbn [foldr].
  - split; [apply length_replicate|].
    intros i Hi. apply nth_lookup_Some. now apply lookup_replicate_2.
  - split; [rewrite length_zip_with; lia|].
    intros i Hi. apply nth_lookup_Some.
    rewrite lookup_zip_with.
    destruct (lookup_lt_is_Some_2 row i) as [x Hx]; [lia|].
    destruct (lookup_lt_is_Some_2 (foldr (zip_with cons) (replicate n []) A) i)
      as [col Hcol]; [lia|].
    rewrite Hx, Hcol. cbn.
    rewrite (nth_lookup_Some _ _ _ _ Hx).
    rewrite <- (IHnth i Hi), (nth_lookup_Some _ _ _ _ Hcol). reflexivity.
Qed.

Lemma transpose_column m n A i :
  well_shaped m n A -> (0 < m)%nat -> (i < n)%nat ->
  nth i (transpose A) [] = (fun row : vec => nth i row 0) <$> A.
Proof.
  intros HA Hm Hi. unfold transpose.
  rewrite (well_shaped_ncols _ _ _ HA Hm).
  now apply transpose_rows; [apply HA|].
Qed.

Lemma well_shaped_transpose m n A :
  well_shaped m n A -> (0 < m)%nat -> well_shaped n m (transpose A).
Proof.
  intros HA Hm.
  assert (Hlen : length (transpose A) = n).
  { unfold transpose. rewrite (well_shaped_ncols _ _ _ HA Hm).
    now apply transpose_rows; [apply HA]. }
  split; [exact Hlen|].
  apply Forall_lookup_2. intros i col Hcol.
  assert (Hi : (i < n)%nat) by (rewrite <- Hlen; now apply lookup_lt_Some with col).
  pose proof (transpose_column _ _ _ i HA Hm Hi) as Hnth.
  rewrite (nth_lookup_Some _ _ _ _ Hcol) in Hnth. subst col.
  rewrite length_fmap. apply HA.
Qed.

Lemma get_transpose m n A i j :
  well_shaped m n A -> (i < n)%nat -> (j < m)%nat ->
  get (transpose A) i j = get A j i.
Proof.
  intros HA Hi Hj. unfold get.
  rewrite (transpose_column m n) by (assumption || lia).
  apply (nth_fmap (fun row : vec => nth i row 0)).
  destruct HA as [-> _]. exact Hj.
Qed.

Lemma well_shaped_matmul m k n A B :
  well_shaped m k A -> well_shaped k n B -> (0 < k)%nat ->
  well_shaped m n (A @@ B).
Proof.
  intros [HAm HA] HB Hk. unfold matmul. split.
  - now rewrite length_fmap.
  - apply Forall_fmap, Forall_true. intros row. cbn.
    rewrite length_fmap. now apply (well_shaped_transpose k n).
Qed.

Lemma get_matmul m k n A B i j :
  well_shaped m k A -> well_shaped k n B -> (0 < k)%nat ->
  (i < m)%nat -> (j < n)%nat ->
  get (A @@ B) i j = rsum k (fun l => get A i l * get B l j).
Proof.
  intros HA HB Hk Hi Hj. unfold get at 1. unfold matmul.
  pose proof (well_shaped_transpose _ _ _ HB Hk) as [HBt _].
  rewrite (nth_fmap _ _ _ _ []) by (destruct HA as [-> _]; exact Hi).
  rewrite (nth_fmap _ _ _ _ []) by lia.
  rewrite (transpose_column k n) by assumption.
  rewrite (dot_rsum _ _ k).
  - apply rsum_ext. intros l Hl. unfold get. f_equal.
    apply (nth_fmap (fun row : vec => nth j row 0)).
    destruct HB as [-> _]. exact Hl.
  - now apply (well_shaped_row m).
  - rewrite length_fmap. apply HB.
Qed.

Lemma well_shaped_identity n : well_shaped n n (identity n).
Proof.
  unfold identity. split.
  - now rewrite length_fmap, length_seq.
  - apply Forall_fmap, Forall_true. intros i. cbn.
    now rewrite length_insert, length_replicate.
Qed.

Lemma get_identity n i j :
  (i < n)%nat -> (j < n)%nat ->
  get (identity n) i j = if decide (i = j) then 1 else 0.
Proof.
  intros Hi Hj. unfold get, identity.
  rewrite (nth_fmap _ _ _ _ 0%nat) by now rewrite length_seq.
  rewrite seq_nth by exact Hi. cbn.
  apply nth_lookup_Some.
  destruct (decide (i = j)) as [->|Hne].
  - apply list_lookup_insert_eq. now rewrite length_replicate.
  - rewrite list_lookup_insert_ne by exact Hne. now apply lookup_replicate_2.
Qed.

Lemma transpose_matmul m k n A B :
  well_shaped m k A -> well_shaped k n B ->
  (0 < m)%nat -> (0 < k)%nat ->
  transpose (A @@ B) = transpose B @@ transpose A.
Proof.
  intros HA HB Hm Hk.
  pose proof (well_shaped_matmul _ _ _ _ _ HA HB Hk) as HAB.
  pose proof (well_shaped_transpose _ _ _ HA Hm) as HAt.
  pose proof (well_shaped_transpose _ _ _ HB Hk) as HBt.
  apply (matrix_ext n m).
  - now apply well_shaped_transpose.
  - now apply (well_shaped_matmul n k m).
  - intros i j Hi Hj.
    rewrite (get_transpose m n (A @@ B)) by assumption.
    rewrite (get_matmul m k n A B), (get_matmul n k m) by assumption.
    apply rsum_ext. intros l Hl.
    rewrite (get_transpose m k A), (get_transpose k n B) by assumption. lra.
Qed.

Lemma matmul_assoc m k l n A B C :
  well_shaped m k A -> well_shaped k l B -> well_shaped l n C ->
  (0 < k)%nat -> (0 < l)%nat ->
  A @@ B @@ C = A @@ (B @@ C).
Proof.
  intros HA HB HC Hk Hl.
  pose proof (well_shaped_matmul _ _ _ _ _ HA HB Hk) as HAB.
  pose proof (well_shaped_matmul _ _ _ _ _ HB HC Hl) as HBC.
  apply (matrix_ext m n).
  - now apply (well_shaped_matmul m l n).
  - now apply (well_shaped_matmul m k n).
  - intros i j Hi Hj.
    rewrite (get_matmul m l n), (get_matmul m k n) by assumption.
    rewrite (rsum_ext l _
      (fun b => rsum k (fun a => get A i a * get B a b * get C b j))).
    2:{ intros b Hb. rewrite (get_matmul m k l) by assumption.
        now rewrite rsum_scal_r. }
    rewrite rsum_swap. apply rsum_ext. intros a Ha.
    rewrite (get_matmul k l n) by assumption.
    rewrite <- rsum_scal_l. apply rsum_ext. intros b Hb. lra.
Qed.

Lemma matmul_identity_l k n B :
  well_shaped k n B -> (0 < k)%nat -> identity k @@ B = B.
Proof.
  intros HB Hk. apply (matrix_ext k n).
  - apply (well_shaped_matmul k k n); [apply well_shaped_identity|assumption..].
  - assumption.
  - intros i j Hi Hj.
    rewrite (get_matmul k k n) by (apply well_shaped_identity || assumption).
    rewrite (rsum_ext k _
      (fun l => (if decide (i = l) then 1 else 0) * get B l j)).
    + now apply (rsum_delta k i (fun l => get B l j)).
    + intros l Hl. now rewrite get_identity.
Qed.

(** The product of a matrix with orthonormal columns and an orthogonal
    square matrix has orthonormal columns. *)
Lemma orthonormal_columns_matmul m r Q W :
  (0 < m)%nat -> (0 < r)%nat ->
  well_shaped m r Q -> well_shaped r r W ->
  orthonormal_columns Q -> orthonormal_columns W ->
  orthonormal_columns (Q @@ W).
Proof.
  unfold orthonormal_columns. intros Hm Hr HQ HW HQo HWo.
  pose proof (well_shaped_matmul _ _ _ _ _ HQ HW Hr) as HQW.
  pose proof (well_shaped_transpose _ _ _ HQ Hm) as HQt.
  pose proof (well_shaped_transpose _ _ _ HW Hr) as HWt.
  rewrite (well_shaped_ncols _ _ _ HQ Hm) in HQo.
  rewrite (well_shaped_ncols _ _ _ HW Hr) in HWo.
  rewrite (well_shaped_ncols _ _ _ HQW Hm).
  rewrite (transpose_matmul m r r) by assumption.
  rewrite (matmul_assoc r r m r) by assumption.
  rewrite <- (matmul_assoc r m r r (transpose Q) Q W) by assumption.
  rewrite HQo, (matmul_identity_l r r) by assumption.
  exact HWo.
Qed.

(** ** The rows that trim rescales *)

Lemma sq_norm_cons x (row : vec) : sq_norm (x :: row) = x ^ 2 + sq_norm row.
Proof. reflexivity. Qed.

Lemma sq_norm_scale c (row : vec) :
  sq_norm ((fun x => x * c) <$> row) = c ^ 2 * sq_norm row.
Proof.
  induction row as [|x row IH]; [cbn; lra|].
  rewrite fmap_cons, !sq_norm_cons, IH. cbn. lra.
Qed.

(** A row scaled by [bound / sqrt s], [s > 0] its squared norm, has the
    squared norm [bound^2]. *)
Lemma sq_norm_rescaled bound (row : vec) :
  0 < sq_norm row ->
  sq_norm ((fun x => x * (bound / sqrt (sq_norm row))) <$> row) = bound ^ 2.
Proof.
  intros Hs. rewrite sq_norm_scale.
  pose proof (sqrt_lt_R0 _ Hs) as Hsq.
  pose proof (sqrt_sqrt (sq_norm row) (Rlt_le _ _ Hs)) as Hss.
  rewrite <- Hss at 2. field. lra.
Qed.

Lemma rescaled_lookup mu (A : matrix) i (row : vec) :
  A !! i = Some row ->
  rescaled mu A !! i =
  Some (rescale_row (trim_bound mu A)
          (if Rlt_dec (trim_bound mu A) (sq_norm row) then true else false)
          (sq_norm row) row).
Proof.
  intros Hrow. unfold rescaled, rescale_big_rows, big_rows, row_norm_square.
  rewrite !lookup_zip_with, !list_lookup_fmap, Hrow. reflexivity.
Qed.

Lemma rescaled_big_row mu (A : matrix) i (row : vec) :
  A !! i = Some row -> trim_bound mu A < sq_norm row ->
  rescaled mu A !! i =
  Some ((fun x => x * (trim_bound mu A / sqrt (sq_norm row))) <$> row).
Proof.
  intros Hrow Hbig. rewrite (rescaled_lookup _ _ _ _ Hrow).
  destruct (Rlt_dec _ _); [reflexivity|contradiction].
Qed.

Lemma rescaled_small_row mu (A : matrix) i (row : vec) :
  A !! i = Some row -> sq_norm row <= trim_bound mu A ->
  rescaled mu A !! i = Some row.
Proof.
  intros Hrow Hsmall. rewrite (rescaled_lookup _ _ _ _ Hrow).
  destruct (Rlt_dec _ _); [lra|reflexivity].
Qed.

Lemma trim_bound_nonneg mu A : 0 < mu -> 0 <= trim_bound mu A.
Proof.
  intros Hmu. unfold trim_bound, Rdiv.
  pose proof (pos_INR (ncols A)). pose proof (pos_INR (nrows A)).
  assert (0 <= / INR (nrows A)).
  { destruct (Req_dec (INR (nrows A)) 0) as [->|Hne].
    - rewrite Rinv_0. lra.
    - left. apply Rinv_0_lt_compat. lra. }
  apply Rmult_le_pos; [apply Rmult_le_pos; lra|assumption].
Qed.

Lemma rescaled_row_changes mu (A : matrix) i (row : vec) :
  0 < mu -> A !! i = Some row -> trim_bound mu A < sq_norm row ->
  let row' := (fun x => x * (trim_bound mu A / sqrt (sq_norm row))) <$> row in
  rescaled mu A !! i = Some row' /\ sq_norm row' = trim_bound mu A ^ 2.
Proof.
  intros Hmu Hrow Hbig. split.
  - now apply rescaled_big_row.
  - apply sq_norm_rescaled. pose proof (trim_bound_nonneg mu A Hmu). lra.
Qed.

Lemma rescaled_differs mu (A : matrix) i (row : vec) :
  0 < mu -> A !! i = Some row -> trim_bound mu A < sq_norm row ->
  sq_norm row <> trim_bound mu A ^ 2 ->
  rescaled mu A <> A.
Proof.
  intros Hmu Hrow Hbig Hne Heq.
  destruct (rescaled_row_changes mu A i row Hmu Hrow Hbig) as [Hrow' Hsq].
  rewrite Heq, Hrow in Hrow'. injection Hrow' as Hrow'.
  rewrite <- Hrow' in Hsq. contradiction.
Qed.

Lemma rescaled_lookup_None mu (A : matrix) i :
  A !! i = None -> rescaled mu A !! i = None.
Proof.
  intros HA. unfold rescaled, rescale_big_rows.
  rewrite lookup_zip_with, HA. reflexivity.
Qed.

(** An array without a row above the bound is not changed. *)
Lemma rescaled_id mu (A : matrix) :
  (forall row, row ∈ A -> sq_norm row <= trim_bound mu A) ->
  rescaled mu A = A.
Proof.
  intros Hsmall. apply list_eq. intros i.
  destruct (A !! i) as [row|] eqn:HA.
  - apply rescaled_small_row; [exact HA|].
    apply Hsmall. now apply list_elem_of_lookup_2 with i.
  - now apply rescaled_lookup_None.
Qed.

(** ** A quotient by the norm of an all-zero input *)

Lemma sum_list_replicate_0 n : sum_list (replicate n 0) = 0.
Proof. induction n as [|n IH]; cbn; [reflexivity|]. unfold sum_list in IH. rewrite IH. lra. Qed.

Lemma dot_zeros n : dot (replicate n 0) (replicate n 0) = 0.
Proof.
  induction n as [|n IH]; [reflexivity|].
  cbn [replicate]. rewrite dot_cons, IH. lra.
Qed.

Lemma norm_fro_zeros m n : norm_fro (zeros m n) = 0.
Proof.
  unfold norm_fro, zeros. rewrite fmap_replicate, dot_zeros.
  rewrite sum_list_replicate_0. apply sqrt_0.
Qed.

Lemma norm_fro_nonneg A : 0 <= norm_fro A.
Proof. apply sqrt_pos. Qed.

(** A quotient by a zero norm is [nan] or [inf], and is below no
    tolerance. *)
Lemma residual_zero_norm D L S e :
  norm_fro D = 0 -> float_lt (residual D L S) e = false.
Proof.
  intros HD. unfold residual, np_div. rewrite HD.
  destruct (Req_dec_T 0 0); [|contradiction].
  pose proof (norm_fro_nonneg (msub (msub D L) S)).
  destruct (Rlt_dec 0 _); [reflexivity|].
  destruct (Rlt_dec _ 0); [lra|reflexivity].
Qed.

(** * Part V: worked examples with [diag_lib] *)

Lemma Rminus_self x : x - x = 0. Proof. lra. Qed.

Create Rewrite HintDb rsimpl.

#[local] Hint Rewrite Rmult_0_l Rmult_0_r Rmult_1_l Rmult_1_r Rplus_0_l Rplus_0_r
  Rminus_0_r Rminus_self hard_threshold_elt_0 : rsimpl.

#[local] Arguments column_qr : simpl never.

#[local] Arguments norm_fro : simpl never.

#[local] Arguments residual : simpl never.

#[local] Arguments np_empty : simpl never.

#[local] Arguments setitem : simpl never.

#[local] Arguments getitem : simpl never.

#[local] Arguments float_lt : simpl never.

#[local] Arguments hard_threshold_elt : simpl never.

#[local] Arguments β : simpl never.

#[local] Arguments β_init : simpl never.

#[local] Arguments γ : simpl never.

#[local] Arguments eps : simpl never.

#[local] Arguments niter : simpl never.

(** ** [D = [[1, 0], [0, 0]]] with rank 1 *)

Lemma cbrt_1 : cbrt 1 = 1.
Proof.
  unfold cbrt. destruct (Rlt_dec 0 1); [|lra].
  unfold Rpower. rewrite ln_1, Rmult_0_r. apply exp_0.
Qed.

Lemma β_e11 n e : β D_e11 (e11_params n e) = 1 / 2.
Proof.
  unfold β. cbn. replace ((1 + 1 + 1 + 1) / 4) with 1 by lra.
  rewrite cbrt_1. lra.
Qed.

Lemma β_init_e11 n e : β_init D_e11 (e11_params n e) = 2.
Proof. unfold β_init. cbn. rewrite β_e11. lra. Qed.

Lemma γ_e11 n e : γ (e11_params n e) = 7 / 10.
Proof. reflexivity. Qed.

Lemma eps_e11 n e : eps (e11_params n e) = default (1 / 10 ^ 5) e.
Proof. reflexivity. Qed.

Lemma float_lt_0 e : float_lt (Finite 0) e = if Rlt_dec 0 e then true else false.
Proof. reflexivity. Qed.

Lemma norm_fro_e11 : norm_fro D_e11 = 1.
Proof.
  unfold norm_fro. cbn. autorewrite with rsimpl. apply sqrt_1.
Qed.

Lemma norm_fro_zeros22 : norm_fro [[0; 0]; [0; 0]] = 0.
Proof.
  unfold norm_fro. cbn. autorewrite with rsimpl. apply sqrt_0.
Qed.

Lemma norm_fro_zeros21 : norm_fro [[0]; [0]] = 0.
Proof.
  unfold norm_fro. cbn. autorewrite with rsimpl. apply sqrt_0.
Qed.

Lemma residual_e11 : residual D_e11 D_e11 [[0; 0]; [0; 0]] = Finite 0.
Proof.
  unfold residual. cbn. autorewrite with rsimpl.
  rewrite norm_fro_zeros22, norm_fro_e11.
  unfold np_div. destruct (Req_dec_T 1 0); [lra|]. f_equal. lra.
Qed.

Lemma column_qr_zeros21 : column_qr [[0]; [0]] = ([[1]; [0]], [[0]]).
Proof.
  unfold column_qr. cbn. rewrite norm_fro_zeros21.
  destruct (Req_dec_T 0 0); [reflexivity|contradiction].
Qed.

Lemma init_e11 n e :
  (0 < default 100%Z n)%Z ->
  @AccAltProj_init diag_lib D_e11 1 (e11_params n e) =
  Returned (e11_state [1] (1 / 2)
    (<[0%nat := Finite 0]> (replicate (Z.to_nat (default 100%Z n)) (Finite 0)))).
Proof.
  intros Hn. unfold AccAltProj_init. cbn.
  rewrite getitem_0. cbn. rewrite β_init_e11, β_e11.
  autorewrite with rsimpl.
  rewrite (hard_threshold_elt_drop 2 1) by (rewrite Rabs_R1; lra).
  autorewrite with rsimpl. rewrite getitem_0. cbn.
  autorewrite with rsimpl.
  rewrite residual_e11.
  unfold niter. cbn [p_niter e11_params].
  rewrite np_empty_nonneg by lia. cbn.
  rewrite setitem_lt by (rewrite length_replicate; lia).
  reflexivity.
Qed.

Lemma iteration_e11 n e i Sigma ζ out :
  (i + 1 < length out)%nat ->
  @iteration diag_lib D_e11 1 (e11_params n e) i (e11_state Sigma ζ out) =
  Returned (e11_state [1; 0] (1 / 2 * (7 / 10) ^ i) (<[(i + 1)%nat := Finite 0]> out)).
Proof.
  intros Hi. unfold iteration. cbn.
  autorewrite with rsimpl. rewrite column_qr_zeros21. cbn.
  autorewrite with rsimpl. rewrite getitem_1, getitem_0. cbn.
  autorewrite with rsimpl. rewrite residual_e11, β_e11, γ_e11.
  rewrite setitem_lt by exact Hi. reflexivity.
Qed.

Lemma iteration_e11_overflow n e i Sigma ζ out :
  (length out <= i + 1)%nat ->
  @iteration diag_lib D_e11 1 (e11_params n e) i (e11_state Sigma ζ out) =
  Raised IndexError.
Proof.
  intros Hi. unfold iteration. cbn.
  autorewrite with rsimpl. rewrite column_qr_zeros21. cbn.
  autorewrite with rsimpl. rewrite getitem_1, getitem_0. cbn.
  autorewrite with rsimpl. rewrite residual_e11.
  rewrite setitem_ge by exact Hi. reflexivity.
Qed.

(** With a tolerance that the residual [0] is not below, the loop runs
    until its last index and fails there. *)
Lemma loop_e11_no_break n e k i Sigma ζ out :
  default (1 / 10 ^ 5) e <= 0 ->
  (0 < k)%nat -> length out = (i + k)%nat ->
  @loop diag_lib D_e11 1 (e11_params n e) k i (e11_state Sigma ζ out) =
  Raised IndexError.
Proof.
  intros He. revert i Sigma ζ out.
  induction k as [|k IH]; intros i Sigma ζ out Hk Hlen; [lia|].
  cbn [loop]. destruct (decide (k = 0%nat)) as [->|Hk0].
  - rewrite iteration_e11_overflow by lia. reflexivity.
  - rewrite iteration_e11 by lia. cbn.
    unfold getitem. rewrite list_lookup_insert_eq by lia. cbn.
    rewrite float_lt_0, eps_e11.
    destruct (Rlt_dec 0 (default (1 / 10 ^ 5) e)) as [Hlt|_]; [exfalso; revert He Hlt; generalize (default (1 / 10 ^ 5) e); intros; lra|].
    apply IH; [lia|]. rewrite length_insert. lia.
Qed.

Lemma run_e11_eps0 :
  @AccAltProj diag_lib D_e11 1 (e11_params None (Some 0)) = Raised IndexError.
Proof.
  unfold AccAltProj, AccAltProj_run. rewrite init_e11 by (cbn; lia).
  cbn [mbind py_bind default].
  rewrite (loop_e11_no_break None (Some 0)); [reflexivity|cbn; lra|unfold niter; cbn; lia|].
  rewrite length_insert, length_replicate. reflexivity.
Qed.

Lemma run_e11_default :
  @AccAltProj diag_lib D_e11 1 no_params =
  Returned [Arr2 D_e11; Arr2 [[0; 0]; [0; 0]]].
Proof.
  change no_params with (e11_params None None).
  unfold AccAltProj, AccAltProj_run. rewrite init_e11 by (cbn; lia).
  cbn [mbind py_bind default].
  change (Z.to_nat (niter (e11_params None None))) with (S (S 98)). cbn [loop].
  rewrite iteration_e11 by (rewrite length_insert, length_replicate; lia). cbn.
  unfold getitem. rewrite list_lookup_insert_eq
    by (rewrite length_insert, length_replicate; lia). cbn.
  rewrite float_lt_0, eps_e11. cbn. destruct (Rlt_dec _ _) as [|Hn]; [reflexivity|].
  exfalso. apply Hn. lra.
Qed.

(** ** [trim] on [U = V = [[1], [0]]] with [mu = 0.5] *)

Lemma sqrt_sixteenth : sqrt (1 / 4 * (1 / 4)) = 1 / 4.
Proof. apply sqrt_square. lra. Qed.

Lemma rescaled_e1 : rescaled (1 / 2) e1_col = [[1 / 4]; [0]].
Proof.
  unfold rescaled, trim_bound. cbn. autorewrite with rsimpl.
  destruct (Rlt_dec (1 / 2 / (1 + 1)) 1); [|lra].
  destruct (Rlt_dec (1 / 2 / (1 + 1)) 0); [lra|].
  cbn. rewrite sqrt_1. repeat f_equal. lra.
Qed.

Lemma norm_fro_quarter : norm_fro [[1 / 4]; [0]] = 1 / 4.
Proof.
  unfold norm_fro. cbn. autorewrite with rsimpl. apply sqrt_sixteenth.
Qed.

Lemma column_qr_quarter : column_qr [[1 / 4]; [0]] = (e1_col, [[1 / 4]]).
Proof.
  unfold column_qr. cbn. rewrite norm_fro_quarter.
  destruct (Req_dec_T (1 / 4) 0); [lra|].
  repeat f_equal; lra.
Qed.

Lemma trim_body_e1 :
  @trim_body diag_lib 1%positive [[1]] 2%positive (1 / 2) (1 / 2) e1_heap =
  Returned (e1_locals, e1_heap_after).
Proof.
  assert (H1 : e1_heap !!! 1%positive = e1_col) by reflexivity.
  assert (H2 : (<[1%positive := rescaled (1 / 2) e1_col]> e1_heap) !!! 2%positive = e1_col)
    by reflexivity.
  rewrite trim_body_eval; rewrite ?H1, ?H2; [|cbn; lia..].
  rewrite rescaled_e1.
  rewrite lookup_total_insert_eq, lookup_total_insert_ne, lookup_total_insert_eq by done.
  cbn [qr diag_lib]. rewrite column_qr_quarter. cbn.
  autorewrite with rsimpl. reflexivity.
Qed.

Lemma trim_e1 :
  @trim diag_lib 1%positive [[1]] 2%positive (1 / 2) (1 / 2) e1_heap =
  Returned (e1_col, e1_col, e1_heap_after).
Proof. unfold trim. rewrite trim_body_e1. reflexivity. Qed.

Lemma trim_step_e11 Sigma ζ out :
  take 1 Sigma = [1] ->
  @trim_step diag_lib 1 trim_params (e11_state Sigma ζ out) =
  Returned (e11_state Sigma ζ out).
Proof.
  intros HS. unfold trim_step, trim. cbn. rewrite !getitem_0. cbn.
  rewrite HS. cbn. fold e1_heap.
  rewrite trim_body_e1. reflexivity.
Qed.

Lemma orthonormal_columns_e1 : orthonormal_columns e1_col.
Proof. unfold orthonormal_columns. cbn. autorewrite with rsimpl. reflexivity. Qed.

Lemma orthonormal_columns_1 : orthonormal_columns [[1]].
Proof. unfold orthonormal_columns. cbn. autorewrite with rsimpl. reflexivity. Qed.

Lemma well_shaped_e1 : well_shaped 2 1 e1_col.
Proof. split; [reflexivity|]. repeat constructor. Qed.

Lemma well_shaped_1 : well_shaped 1 1 [[1]].
Proof. split; [reflexivity|]. repeat constructor. Qed.

(** ** [D = diag(2, 1, 0)] with rank 2 *)

Lemma Rabs_2 : Rabs 2 = 2.
Proof. apply Rabs_pos_eq. lra. Qed.

Lemma init_210 :
  @AccAltProj_init diag_lib D_210 2 params_210 = Returned state_210.
Proof.
  unfold AccAltProj_init. cbn. rewrite getitem_0. cbn.
  change (β_init D_210 params_210) with 2. change (β D_210 params_210) with (1 / 2).
  rewrite (hard_threshold_elt_drop (2 * 2) 2) by (rewrite Rabs_2; lra).
  rewrite (hard_threshold_elt_drop (2 * 2) 1) by (rewrite Rabs_R1; lra).
  autorewrite with rsimpl. rewrite getitem_0. cbn.
  autorewrite with rsimpl.
  change (niter params_210) with 100%Z.
  rewrite np_empty_nonneg by lia. cbn [mbind py_bind].
  rewrite setitem_lt by (rewrite length_replicate; lia).
  reflexivity.
Qed.

(** ** [trim] on arrays within their bounds *)

Lemma rescaled_quarter : rescaled (1 / 2) [[1 / 4]; [0]] = [[1 / 4]; [0]].
Proof.
  apply rescaled_id. intros row Hrow.
  assert (Hb : trim_bound (1 / 2) [[1 / 4]; [0]] = 1 / 4)
    by (unfold trim_bound; cbn; lra).
  rewrite Hb. apply list_elem_of_In in Hrow.
  destruct Hrow as [<-|[<-|[]]]; unfold sq_norm; cbn; lra.
Qed.

Lemma quarter_rows_small (row : vec) :
  row ∈ ([[1 / 4]; [0]] : matrix) -> sq_norm row <= trim_bound (1 / 2) [[1 / 4]; [0]].
Proof.
  intros Hrow.
  assert (Hb : trim_bound (1 / 2) [[1 / 4]; [0]] = 1 / 4)
    by (unfold trim_bound; cbn; lra).
  rewrite Hb. apply list_elem_of_In in Hrow.
  destruct Hrow as [<-|[<-|[]]]; unfold sq_norm; cbn; lra.
Qed.

(** A second [trim] on the store that the first one has left. *)
Lemma trim_e1_again :
  @trim diag_lib 1%positive [[1]] 2%positive (1 / 2) (1 / 2) e1_heap_after =
  Returned (e1_col, e1_col,
            <[2%positive := [[1 / 4]; [0]]]> (<[1%positive := [[1 / 4]; [0]]]> e1_heap_after)).
Proof.
  assert (H1 : e1_heap_after !!! 1%positive = [[1 / 4]; [0]]) by reflexivity.
  assert (H2 : (<[1%positive := [[1 / 4]; [0]]]> e1_heap_after) !!! 2%positive
               = [[1 / 4]; [0]]) by reflexivity.
  unfold trim. rewrite trim_body_eval; rewrite ?H1, ?rescaled_quarter, ?H2;
    [|cbn; lia..].
  rewrite rescaled_quarter.
  rewrite lookup_total_insert_eq, lookup_total_insert_ne, lookup_total_insert_eq by done.
  cbn [qr diag_lib]. rewrite column_qr_quarter. cbn.
  autorewrite with rsimpl. reflexivity.
Qed.

(** ** The answers of [diag_lib] in the examples are decompositions *)

Ltac check_entries :=
  cbn; autorewrite with rsimpl; try reflexivity; repeat (f_equal; try lra).

Ltac check_order :=
  intros [|[|[|i]]] [|[|[|j]]] a b Hij; cbn; intros Ha Hb;
  simplify_eq; solve [lra | lia].

Ltac check_triplets :=
  unfold singular_triplets, orthonormal_columns;
  repeat split; try check_entries; repeat constructor; lra.

Lemma svds_e11_sound :
  singular_triplets D_e11 e1_col [1] [[1; 0]] /\ ascending [1] /\
  @svds diag_lib D_e11 1 = (e1_col, [1], [[1; 0]]).
Proof. split; [check_triplets|]. split; [check_order|reflexivity]. Qed.

Lemma qr_zeros21_sound :
  is_qr [[0]; [0]] e1_col [[0]] /\
  @qr diag_lib [[0]; [0]] = (e1_col, [[0]]).
Proof.
  split; [|exact column_qr_zeros21].
  split; [check_entries|exact orthonormal_columns_e1].
Qed.

Lemma svd_e11_sound :
  singular_triplets D_e11 (identity 2) [1; 0] (identity 2) /\ descending [1; 0] /\
  @svd diag_lib D_e11 = (identity 2, [1; 0], identity 2).
Proof. split; [check_triplets|]. split; [check_order|reflexivity]. Qed.

Lemma qr_quarter_sound :
  is_qr [[1 / 4]; [0]] e1_col [[1 / 4]] /\
  @qr diag_lib [[1 / 4]; [0]] = (e1_col, [[1 / 4]]).
Proof.
  split; [|exact column_qr_quarter].
  split; [check_entries|exact orthonormal_columns_e1].
Qed.

Lemma svd_sixteenth_sound :
  singular_triplets [[1 / 4 * (1 / 4)]] [[1]] [1 / 4 * (1 / 4)] [[1]] /\
  @svd diag_lib [[1 / 4 * (1 / 4)]] = ([[1]], [1 / 4 * (1 / 4)], [[1]]).
Proof. split; [check_triplets|reflexivity]. Qed.

Lemma svds_210_sound :
  singular_triplets D_210 [[1]; [0]; [0]] [2] [[1; 0; 0]] /\
  @svds diag_lib D_210 1 = ([[1]; [0]; [0]], [2], [[1; 0; 0]]) /\
  singular_triplets D_210 [[0; 1]; [1; 0]; [0; 0]] [1; 2] [[0; 1; 0]; [1; 0; 0]] /\
  ascending [1; 2] /\
  @svds diag_lib D_210 2 = ([[0; 1]; [1; 0]; [0; 0]], [1; 2], [[0; 1; 0]; [1; 0; 0]]).
Proof.
  split; [check_triplets|]. split; [reflexivity|].
  split; [check_triplets|]. split; [check_order|reflexivity].
Qed.

(** * Part VI: the properties of the specification *)

(** ** C1: exhausting the iteration budget *)

(** C1 fails on the code.  A run that is never left by the convergence
    [break] (its relative residual stays at or above the tolerance in every
    iteration) does not return [(L, S)]: it ends in an exception, because
    the last iteration stores [out[niter]] into the buffer
    [np.empty(niter)].  Without trimming and with [niter >= 0] the
    exception is that [IndexError]. *)
Theorem exhausted_budget_raises `{LinAlg} (D : matrix) (r : nat) (p : params) :
  (forall st k, AccAltProj_run D r p <> Returned (st, Converged k)) ->
  exists e, AccAltProj D r p = Raised e /\
    (trimming p = false -> (0 <= niter p)%Z -> e = IndexError).
Proof.
  intros Hnever. unfold AccAltProj.
  destruct (AccAltProj_run D r p) as [[st [k|]]|e] eqn:Hrun.
  - now destruct (Hnever st k).
  - now destruct (run_not_exhausted D r p st).
  - exists e. split; [reflexivity|].
    intros Ht Hn. now apply (run_raises D r p).
Qed.

Lemma exhausted_budget_raises_witness :
  (forall st k, @AccAltProj_run diag_lib D_e11 1 params_eps0
                <> Returned (st, Converged k)) /\
  exists e, @AccAltProj diag_lib D_e11 1 params_eps0 = Raised e /\
    (trimming params_eps0 = false ->
     (0 <= niter params_eps0)%Z -> e = IndexError).
Proof.
  assert (Hnever : forall st k,
    @AccAltProj_run diag_lib D_e11 1 params_eps0
    <> Returned (st, Converged k)).
  { intros st k Hrun. pose proof run_e11_eps0 as Hraise.
    fold params_eps0 in Hraise.
    unfold AccAltProj in Hraise. rewrite Hrun in Hraise. discriminate Hraise. }
  split; [exact Hnever|].
  exact (@exhausted_budget_raises diag_lib D_e11 1 params_eps0 Hnever).
Defined.

(** ** C2: the value that AccAltProj returns *)




(** ** C3: the rescaling step of trim *)

(** C3, amended: a row of [U] whose squared norm [s] exceeds the bound
    [b = mu_U * r / m] is multiplied by [b / sqrt s], so that right after the
    rescaling its squared norm is [b^2] (its norm is [b]); the same holds
    for [V] with [mu_V * r / n]. *)
Theorem trim_rescales_big_rows `{LinAlg} (pU pV : loc) (Sig : matrix)
    (mu_U mu_V : R) (h h' : heap) (f : trim_locals) :
  pU <> pV -> 0 < mu_U -> 0 < mu_V ->
  trim_body pU Sig pV mu_U mu_V h = Returned (f, h') ->
  (forall i row, (h !!! pU) !! i = Some row ->
     trim_bound mu_U (h !!! pU) < sq_norm row ->
     let row' := (fun x => x * (trim_bound mu_U (h !!! pU) / sqrt (sq_norm row))) <$> row in
     (h' !!! pU) !! i = Some row' /\
     sq_norm row' = trim_bound mu_U (h !!! pU) ^ 2) /\
  (forall i row, (h !!! pV) !! i = Some row ->
     trim_bound mu_V (h !!! pV) < sq_norm row ->
     let row' := (fun x => x * (trim_bound mu_V (h !!! pV) / sqrt (sq_norm row))) <$> row in
     (h' !!! pV) !! i = Some row' /\
     sq_norm row' = trim_bound mu_V (h !!! pV) ^ 2).
Proof.
  intros Hne HmU HmV Hb.
  apply trim_body_store in Hb as (_ & -> & ->); [|exact Hne].
  split; intros i row Hrow Hbig; now apply rescaled_row_changes.
Qed.

Lemma trim_rescales_big_rows_witness :
  let b := trim_bound (1 / 2) e1_col in
  (e1_heap_after !!! 1%positive) !! 0%nat
    = Some ((fun x => x * (b / sqrt (sq_norm [1]))) <$> [1]) /\
  sq_norm ((fun x => x * (b / sqrt (sq_norm [1]))) <$> [1]) = b ^ 2.
Proof.
  assert (Hne : 1%positive <> 2%positive) by discriminate.
  assert (HmU : 0 < 1 / 2) by lra.
  pose proof (@trim_rescales_big_rows diag_lib 1%positive 2%positive [[1]]
                (1 / 2) (1 / 2) e1_heap e1_heap_after e1_locals
                Hne HmU HmU trim_body_e1) as [HU _].
  apply (HU 0%nat [1]); [reflexivity|].
  change (e1_heap !!! 1%positive) with e1_col.
  unfold trim_bound, sq_norm. cbn. lra.
Defined.

(** C3 as worded fails: for [U = [[1], [0]]] and [mu_U = 0.5] the bound is
    [0.25]; row 0 has squared norm [1] and is rescaled to [[0.25]], of
    squared norm [0.0625], by the factor [0.25] and not by
    [sqrt(0.25 / 1) = 0.5]. *)
Lemma trim_rescaled_row_not_on_bound :
  exists f h' row,
    @trim_body diag_lib 1%positive [[1]] 2%positive (1 / 2) (1 / 2) e1_heap
    = Returned (f, h') /\
    (e1_heap !!! 1%positive) !! 0%nat = Some [1] /\
    trim_bound (1 / 2) e1_col < sq_norm [1] /\
    (h' !!! 1%positive) !! 0%nat = Some row /\
    sq_norm row <> trim_bound (1 / 2) e1_col /\
    row <> (fun x => x * sqrt (trim_bound (1 / 2) e1_col / sq_norm [1])) <$> [1].
Proof.
  exists e1_locals, e1_heap_after, [1 / 4].
  split; [exact trim_body_e1|]. split; [reflexivity|].
  assert (Hb : trim_bound (1 / 2) e1_col = 1 / 4) by (unfold trim_bound; cbn; lra).
  assert (Hs : sq_norm [1] = 1) by (unfold sq_norm; cbn; lra).
  rewrite Hb, Hs. split; [lra|]. split; [reflexivity|]. split.
  - unfold sq_norm. cbn. lra.
  - cbn. intros [= Heq]. rewrite Rmult_1_l in Heq.
    assert (Hsq : sqrt (1 / 4 / 1) * sqrt (1 / 4 / 1) = 1 / 4 / 1)
      by (apply sqrt_sqrt; lra).
    rewrite <- Heq in Hsq. lra.
Qed.

(** ** C4: the singular values that trim refreshes *)

(** C4, amended: [trim] computes [Sig_out] but hands back only [U_out] and
    [V_out]; the trimming statement of the engine rebinds [U] and [V] to
    them and leaves every other variable, its singular values [Sigma]
    included, as it was before the call. *)
Theorem trim_step_keeps_Sigma `{LinAlg} (r : nat) (p : params) (st st1 : state) :
  trim_step r p st = Returned st1 ->
  st_Sigma st1 = st_Sigma st /\
  st_L st1 = st_L st /\ st_S st1 = st_S st /\
  st_ζ st1 = st_ζ st /\ st_out st1 = st_out st /\
  exists mu_U mu_V f h',
    trim_body 1%positive (diag (take r (st_Sigma st))) 2%positive mu_U mu_V
      (<[2%positive := st_V st]> {[1%positive := st_U st]}) = Returned (f, h') /\
    st_U st1 = U_out f /\ st_V st1 = V_out f.
Proof.
  unfold trim_step. intros Hstep.
  apply bind_inv in Hstep as (mu_U & _ & Hstep).
  apply bind_inv in Hstep as (mu_V & _ & Hstep).
  apply bind_inv in Hstep as ([[U' V'] h'] & Htrim & Hstep).
  injection Hstep as <-. cbn.
  apply trim_inv in Htrim as (f & Hbody & -> & ->).
  repeat (split; [reflexivity|]).
  now exists mu_U, mu_V, f, h'.
Qed.

Lemma trim_step_keeps_Sigma_witness :
  st_Sigma (e11_state [1] (1 / 2) []) = [1] /\
  exists mu_U mu_V f h',
    @trim_body diag_lib 1%positive (diag (take 1 [1])) 2%positive mu_U mu_V
      (<[2%positive := e1_col]> {[1%positive := e1_col]}) = Returned (f, h') /\
    e1_col = U_out f /\ e1_col = V_out f.
Proof.
  pose proof (@trim_step_keeps_Sigma diag_lib 1 trim_params
                (e11_state [1] (1 / 2) []) (e11_state [1] (1 / 2) [])
                (trim_step_e11 [1] (1 / 2) [] eq_refl))
    as (HSigma & _ & _ & _ & _ & Hbody).
  split; [exact HSigma|exact Hbody].
Defined.

(** C4 as worded fails: on a state with [U = V = [[1], [0]]] and
    [Sigma = [1]] (those that the initialisation of [D = [[1, 0], [0, 0]]],
    [r = 1] leaves), with [µ = [0.5]], [trim] computes [Sig_out = [0.0625]],
    and after the trimming statement the engine's [Sigma] still is [[1]]. *)
Lemma trim_step_ignores_Sig_out :
  exists st1 f h',
    @trim_step diag_lib 1 trim_params (e11_state [1] (1 / 2) []) = Returned st1 /\
    @trim_body diag_lib 1%positive (diag (take 1 [1])) 2%positive (1 / 2) (1 / 2)
      (<[2%positive := e1_col]> {[1%positive := e1_col]}) = Returned (f, h') /\
    Sig_out f = [1 / 4 * (1 / 4)] /\
    st_Sigma st1 = [1] /\
    st_Sigma st1 <> Sig_out f.
Proof.
  exists (e11_state [1] (1 / 2) []), e1_locals, e1_heap_after.
  split; [now apply trim_step_e11|]. split; [exact trim_body_e1|].
  split; [reflexivity|]. split; [reflexivity|].
  cbn. intros [= Heq]. lra.
Qed.

(** ** C5: the threshold after the initialisation *)

(** C5 fails on the code.  [svds] returns its singular values in ascending
    order, and the threshold is [β * Sigma[0]]: when the retained singular
    values are ascending, [ζ] is [β] times the smallest of them, and is
    below [β * σ] for every retained [σ]. *)
Theorem init_threshold_smallest `{LinAlg} (D : matrix) (r : nat) (p : params)
    (st : state) :
  AccAltProj_init D r p = Returned st ->
  ascending (st_Sigma st) ->
  0 <= β D p ->
  exists S0 σ0,
    st_Sigma st = (svds (msub D S0) r).1.2 /\
    st_Sigma st !! 0%nat = Some σ0 /\
    st_ζ st = β D p * σ0 /\
    forall σ, σ ∈ st_Sigma st -> σ0 <= σ /\ st_ζ st <= β D p * σ.
Proof.
  unfold AccAltProj_init. intros Hin Hasc Hβ.
  apply bind_inv in Hin as (σ & _ & Hin).
  apply bind_inv in Hin as (S0 & _ & Hin).
  destruct (svds (msub D S0) r) as [[U0 Sigma0] Vt0] eqn:Hsvds.
  apply bind_inv in Hin as (σ0 & Hσ0 & Hin).
  apply bind_inv in Hin as (S1 & _ & Hin).
  apply bind_inv in Hin as (out0 & _ & Hin).
  apply bind_inv in Hin as (out1 & _ & Hin).
  injection Hin as <-. cbn in *.
  unfold getitem in Hσ0. destruct (Sigma0 !! 0%nat) as [x|] eqn:Hx; [|discriminate].
  injection Hσ0 as ->.
  exists S0, σ0. rewrite Hsvds. cbn.
  repeat (split; [reflexivity || assumption|]).
  intros σ' [j Hj]%list_elem_of_lookup_1.
  assert (Hle : σ0 <= σ') by (apply (Hasc 0%nat j); [lia|assumption..]).
  split; [exact Hle|]. now apply Rmult_le_compat_l.
Qed.

Lemma init_threshold_smallest_witness :
  exists S0 σ0,
    [1; 2] = (@svds diag_lib (msub D_210 S0) 2).1.2 /\
    [1; 2] !! 0%nat = Some σ0 /\
    1 / 2 = 1 / 2 * σ0 /\
    forall σ, σ ∈ [1; 2] -> σ0 <= σ /\ 1 / 2 <= 1 / 2 * σ.
Proof.
  apply (@init_threshold_smallest diag_lib D_210 2 params_210 state_210 init_210).
  - intros [|[|[|i]]] [|[|[|j]]] a b Hij; cbn;
      intros Ha Hb; simplify_eq; solve [lra | lia].
  - change (β D_210 params_210) with (1 / 2). lra.
Defined.

(** On [D = diag(2, 1, 0)] with [r = 2], [β = 0.5] and [β_init = 2] the
    retained singular values are [[1, 2]] and the threshold after the
    initialisation is [0.5 * 1], not [0.5 * 2]. *)
Lemma init_threshold_210 :
  exists st,
    @AccAltProj_init diag_lib D_210 2 params_210 = Returned st /\
    st_Sigma st = [1; 2] /\ β D_210 params_210 = 1 / 2 /\
    st_ζ st = 1 / 2 * 1 /\ st_ζ st <> 1 / 2 * 2.
Proof.
  exists state_210. split; [exact init_210|].
  repeat (split; [reflexivity || (cbn; lra)|]). cbn. lra.
Qed.

(** ** C6: negative thresholds *)

(** C6, as the code has it: a negative threshold is not rejected; both
    operators return normally, [hard_threshold] with [X] itself and
    [soft_threshold] with every magnitude enlarged by [-t]. *)
Theorem thresholds_accept_negative (X : matrix) (t : R) :
  t < 0 ->
  hard_threshold X t = Returned X /\
  soft_threshold X t = Returned (mmap (fun x => sign x * (Rabs x - t)) X).
Proof.
  intros Ht. split.
  - now apply hard_threshold_negative.
  - unfold soft_threshold. f_equal. apply mmap_ext.
    intros x. now apply soft_threshold_elt_negative.
Qed.

Lemma thresholds_accept_negative_witness :
  hard_threshold [[1]] (-1) = Returned [[1]] /\
  soft_threshold [[1]] (-1) = Returned (mmap (fun x => sign x * (Rabs x - -1)) [[1]]).
Proof. apply (thresholds_accept_negative [[1]] (-1)). lra. Defined.

(** C6 fails on the code: [hard_threshold([[1.0]], -1.0)] and
    [soft_threshold([[1.0]], -1.0)] are not rejected. *)
Lemma negative_threshold_not_rejected :
  ~ (exists e, hard_threshold [[1]] (-1) = Raised e) /\
  ~ (exists e, soft_threshold [[1]] (-1) = Raised e).
Proof. split; intros [e He]; discriminate He. Qed.

(** ** C7: the entries of hard_threshold *)

(** C7, amended: [hard_threshold(X, 0)] is [X]; for [t >= 0] every entry of
    [hard_threshold(X, t)] is [0] or the entry of [X], and is [0] exactly
    when the entry of [X] is [0] or smaller than [t] in absolute value. *)
Theorem hard_threshold_entries (X : matrix) (t : R) :
  0 <= t ->
  hard_threshold X 0 = Returned X /\
  exists Y, hard_threshold X t = Returned Y /\
    zero_or_same X Y /\ zero_exactly_below_or_zero X t Y.
Proof.
  intros _. split; [apply hard_threshold_zero|].
  eexists. split; [reflexivity|]. split.
  - intros i j x Hx. exists (hard_threshold_elt t x).
    rewrite entry_mmap, Hx. split; [reflexivity|].
    destruct (hard_threshold_elt_cases t x) as [[_ ->]|[_ ->]]; auto.
  - intros i j x y Hx. rewrite entry_mmap, Hx. cbn. intros [= <-].
    destruct (hard_threshold_elt_cases t x) as [[Hle ->]|[Hlt ->]].
    + split; [now left|]. intros [H0|Hlt]; [assumption|lra].
    + split; [now right|reflexivity].
Qed.

Lemma hard_threshold_entries_witness :
  hard_threshold [[3; -1]] 0 = Returned [[3; -1]] /\
  exists Y, hard_threshold [[3; -1]] 2 = Returned Y /\
    zero_or_same [[3; -1]] Y /\ zero_exactly_below_or_zero [[3; -1]] 2 Y.
Proof. apply (hard_threshold_entries [[3; -1]] 2). lra. Defined.

(** C7 as worded fails at a zero entry with threshold [0]: the entry of
    [hard_threshold([[0.0]], 0.0)] is [0] although [|0| < 0] is false. *)
Lemma hard_threshold_zero_entry_at_zero :
  exists Y, hard_threshold [[0]] 0 = Returned Y /\ ~ zero_exactly_below [[0]] 0 Y.
Proof.
  exists [[0]]. split; [apply hard_threshold_zero|].
  intros Hc. specialize (Hc 0%nat 0%nat 0 0 eq_refl eq_refl).
  destruct Hc as [Hc _]. specialize (Hc eq_refl).
  rewrite Rabs_R0 in Hc. lra.
Qed.

(** ** C8: the factors that trim returns *)

(** C8, amended: when the QR calls return factors [Q1] ([m] by [r]) and
    [Q2] ([n] by [r]) with orthonormal columns and the SVD of the [r] by
    [r] matrix returns orthogonal factors, the [U'] and [V'] that [trim]
    returns have orthonormal columns.  (No bound on their rows holds.) *)
Theorem trim_outputs_orthonormal `{LinAlg} (pU pV : loc) (Sig : matrix)
    (mu_U mu_V : R) (h h' : heap) (f : trim_locals) (U' V' : matrix)
    (m n r : nat) :
  trim pU Sig pV mu_U mu_V h = Returned (U', V', h') ->
  trim_body pU Sig pV mu_U mu_V h = Returned (f, h') ->
  (0 < m)%nat -> (0 < n)%nat -> (0 < r)%nat ->
  well_shaped m r (Q1 f) -> orthonormal_columns (Q1 f) ->
  well_shaped n r (Q2 f) -> orthonormal_columns (Q2 f) ->
  well_shaped r r (U_temp f) -> orthonormal_columns (U_temp f) ->
  well_shaped r r (V_temp f) -> orthonormal_columns (V_temp f) ->
  orthonormal_columns U' /\ orthonormal_columns V'.
Proof.
  intros Htrim Hbody Hm Hn Hr HQ1 HQ1o HQ2 HQ2o HUt HUto HVt HVto.
  apply trim_inv in Htrim as (f' & Hbody' & -> & ->).
  rewrite Hbody in Hbody'. injection Hbody' as <-.
  apply trim_body_inv in Hbody as (_ & _ & _ & _ & _ & _ & -> & ->).
  split; [apply (orthonormal_columns_matmul m r)|apply (orthonormal_columns_matmul n r)];
    assumption.
Qed.

Lemma trim_outputs_orthonormal_witness :
  orthonormal_columns e1_col /\ orthonormal_columns e1_col.
Proof.
  apply (@trim_outputs_orthonormal diag_lib 1%positive 2%positive [[1]]
           (1 / 2) (1 / 2) e1_heap e1_heap_after e1_locals e1_col e1_col
           2%nat 2%nat 1%nat trim_e1 trim_body_e1);
    first [lia | exact well_shaped_e1 | exact orthonormal_columns_e1
          | exact well_shaped_1 | exact orthonormal_columns_1].
Defined.

(** C8 as worded fails: [U = V = [[1], [0]]] (orthonormal columns),
    [Sig = [[1]]] and [mu_U = mu_V = 0.5] are a valid input with the bound
    [mu_U * r / m = 0.25], and row 0 of the returned [U'] has the squared
    norm [1]. *)
Lemma trim_output_row_exceeds_bound :
  exists U' V' h' row,
    orthonormal_columns (e1_heap !!! 1%positive) /\
    orthonormal_columns (e1_heap !!! 2%positive) /\
    @trim diag_lib 1%positive [[1]] 2%positive (1 / 2) (1 / 2) e1_heap
    = Returned (U', V', h') /\
    orthonormal_columns U' /\ orthonormal_columns V' /\
    U' !! 0%nat = Some row /\
    trim_bound (1 / 2) (e1_heap !!! 1%positive) < sq_norm row.
Proof.
  exists e1_col, e1_col, e1_heap_after, [1].
  change (e1_heap !!! 1%positive) with e1_col.
  change (e1_heap !!! 2%positive) with e1_col.
  repeat (split; [first [exact orthonormal_columns_e1 | exact trim_e1 | reflexivity]|]).
  unfold trim_bound, sq_norm. cbn. lra.
Qed.

(** ** C9: the all-zero input *)

(** C9, amended: when [D] is all-zero, a call of [AccAltProj] does not
    return but ends in an exception, whatever [r] and [params] are and
    whatever the decompositions of the library answer.  The function
    returns only through the convergence [break], and a relative residual
    [norm(..)/norm(D)] with [norm(D) = 0] is below no tolerance. *)
Theorem zero_input_never_returns `{LinAlg} (m n r : nat) (p : params) :
  exists e, AccAltProj (zeros m n) r p = Raised e.
Proof.
  destruct (AccAltProj (zeros m n) r p) as [v|e] eqn:Hret; [|now exists e].
  exfalso. unfold AccAltProj in Hret.
  apply bind_inv in Hret as ([st [k|]] & Hrun & _).
  - apply run_converged in Hrun as [_ Hlt].
    rewrite residual_zero_norm in Hlt by apply norm_fro_zeros.
    discriminate Hlt.
  - now destruct (run_not_exhausted (zeros m n) r p st).
Qed.

(** C9 as worded fails: on the 2 by 2 zero matrix with [r = 1] and empty
    [params] no answer of the library makes the call return, so it does
    not return [L = 0], [S = 0]. *)
Lemma zero_input_does_not_return :
  ~ exists (lib : LinAlg) (v : list ndarray),
      @AccAltProj lib (zeros 2 2) 1 no_params = Returned v.
Proof.
  intros (lib & v & Hret). unfold AccAltProj in Hret.
  apply bind_inv in Hret as ([st out] & Hrun & _).
  destruct out as [k|].
  - apply (@run_converged lib) in Hrun as [_ Hlt].
    rewrite (residual_zero_norm (zeros 2 2)) in Hlt by apply (norm_fro_zeros 2 2).
    discriminate Hlt.
  - exact (@run_not_exhausted lib (zeros 2 2) 1 no_params st Hrun).
Qed.

(** ** C10: trim writes into its arguments *)

(** C10, amended: the masked assignments of [trim] go to the arrays that
    the caller passed.  When [trim] returns (for two distinct arrays and
    positive [mu_U], [mu_V]), the caller's [U] and [V] hold the rescaled
    rows, it is from there that the two QR factorisations read them, and an
    array with a row above its bound (whose squared norm is not the square of
    the bound) no longer holds its value from before the call. *)
Theorem trim_mutates_arguments `{LinAlg} (pU pV : loc) (Sig : matrix)
    (mu_U mu_V : R) (h h' : heap) (U' V' : matrix) :
  pU <> pV -> 0 < mu_U -> 0 < mu_V ->
  trim pU Sig pV mu_U mu_V h = Returned (U', V', h') ->
  h' = <[pV := rescaled mu_V (h !!! pV)]> (<[pU := rescaled mu_U (h !!! pU)]> h) /\
  h' !!! pU = rescaled mu_U (h !!! pU) /\
  h' !!! pV = rescaled mu_V (h !!! pV) /\
  (exists f, trim_body pU Sig pV mu_U mu_V h = Returned (f, h') /\
     (Q1 f, R1 f) = qr (h' !!! pU) /\ (Q2 f, R2 f) = qr (h' !!! pV)) /\
  (forall i row, (h !!! pU) !! i = Some row ->
     trim_bound mu_U (h !!! pU) < sq_norm row ->
     sq_norm row <> trim_bound mu_U (h !!! pU) ^ 2 ->
     h' !!! pU <> h !!! pU) /\
  (forall i row, (h !!! pV) !! i = Some row ->
     trim_bound mu_V (h !!! pV) < sq_norm row ->
     sq_norm row <> trim_bound mu_V (h !!! pV) ^ 2 ->
     h' !!! pV <> h !!! pV).
Proof.
  intros Hne HmU HmV Htrim.
  apply trim_inv in Htrim as (f & Hbody & _ & _).
  pose proof (trim_body_store _ _ _ _ _ _ _ _ Hne Hbody) as (Hh' & HU & HV).
  pose proof (trim_body_inv _ _ _ _ _ _ _ _ Hbody) as (_ & _ & _ & Hq1 & Hq2 & _).
  split; [exact Hh'|]. split; [exact HU|]. split; [exact HV|].
  split; [now exists f|].
  rewrite HU, HV.
  split; intros i row Hrow Hbig Hsq; now apply (rescaled_differs _ _ i row).
Qed.

Lemma trim_mutates_arguments_witness :
  e1_heap_after !!! 1%positive = rescaled (1 / 2) (e1_heap !!! 1%positive) /\
  e1_heap_after !!! 1%positive <> e1_heap !!! 1%positive /\
  e1_heap_after !!! 2%positive <> e1_heap !!! 2%positive.
Proof.
  assert (Hne : 1%positive <> 2%positive) by discriminate.
  assert (Hmu : 0 < 1 / 2) by lra.
  destruct (@trim_mutates_arguments diag_lib 1%positive 2%positive [[1]]
              (1 / 2) (1 / 2) e1_heap e1_heap_after e1_col e1_col
              Hne Hmu Hmu trim_e1) as (_ & HU & _ & _ & HdU & HdV).
  split; [exact HU|].
  split; [apply (HdU 0%nat [1])|apply (HdV 0%nat [1])];
    first [reflexivity
          | change (e1_heap !!! 1%positive) with e1_col;
            change (e1_heap !!! 2%positive) with e1_col;
            unfold trim_bound, sq_norm; cbn; lra].
Defined.

(** C10 as worded fails: with [U = V = [[1/4], [0]]] and
    [mu_U = mu_V = 1/2] the bound is [1/4], no row is above it, the call
    returns, and the caller's [U] and [V] hold the values from before the
    call. *)
Lemma trim_call_keeps_arguments :
  exists U' V' h',
    @trim diag_lib 1%positive [[1]] 2%positive (1 / 2) (1 / 2) e1_heap_after
      = Returned (U', V', h') /\
    h' !!! 1%positive = e1_heap_after !!! 1%positive /\
    h' !!! 2%positive = e1_heap_after !!! 2%positive.
Proof.
  eexists _, _, _. split; [exact trim_e1_again|].
  split; reflexivity.
Qed.

(** * Part VII: further properties of the code *)

(** ** Thresholding *)

Lemma mmap_mmap f g (X : matrix) : mmap f (mmap g X) = mmap (fun x => f (g x)) X.
Proof.
  unfold mmap. rewrite <- list_fmap_compose. apply list_fmap_ext.
  intros _ row _. cbn. now rewrite <- list_fmap_compose.
Qed.

(** [soft_threshold] by cases, for a threshold that is not negative. *)
Lemma soft_threshold_elt_cases t x :
  0 <= t ->
  (t < x /\ soft_threshold_elt t x = x - t) \/
  (x < - t /\ soft_threshold_elt t x = x + t) \/
  (- t <= x <= t /\ soft_threshold_elt t x = 0).
Proof.
  intros Ht. unfold soft_threshold_elt, sign, Rmax, Rabs.
  destruct (Rlt_dec 0 x); [|destruct (Rlt_dec x 0)];
    destruct (Rcase_abs x); destruct (Rle_dec _ _); try lra;
    first [ left; split; lra
          | right; left; split; lra
          | right; right; split; lra ].
Qed.

Lemma sign_cases x :
  (0 < x /\ sign x = 1) \/ (x < 0 /\ sign x = -1) \/ (x = 0 /\ sign x = 0).
Proof.
  unfold sign. destruct (Rlt_dec 0 x); [|destruct (Rlt_dec x 0)].
  - left. auto.
  - right. left. auto.
  - right. right. split; lra.
Qed.

Lemma hard_threshold_elt_compose t1 t2 x :
  hard_threshold_elt t2 (hard_threshold_elt t1 x) = hard_threshold_elt (Rmax t1 t2) x.
Proof.
  destruct (hard_threshold_elt_cases t1 x) as [[H1 ->]|[H1 ->]].
  - destruct (hard_threshold_elt_cases t2 x) as [[H2 ->]|[H2 ->]].
    + symmetry. apply hard_threshold_elt_keep. now apply Rmax_lub.
    + symmetry. apply hard_threshold_elt_drop.
      eapply Rlt_le_trans; [exact H2|apply Rmax_r].
  - rewrite hard_threshold_elt_0. symmetry. apply hard_threshold_elt_drop.
    eapply Rlt_le_trans; [exact H1|apply Rmax_l].
Qed.

Lemma soft_hard_elt t x :
  0 <= t ->
  soft_threshold_elt t x =
  hard_threshold_elt t x - t * sign (hard_threshold_elt t x).
Proof.
  intros Ht.
  destruct (soft_threshold_elt_cases t x Ht) as [[H1 ->]|[[H1 ->]|[H1 ->]]];
    destruct (hard_threshold_elt_cases t x) as [[H2 ->]|[H2 ->]];
    revert H2; unfold Rabs; destruct (Rcase_abs x); intros H2;
    try (destruct (sign_cases x) as [[H3 ->]|[[H3 ->]|[H3 ->]]]);
    try (destruct (sign_cases 0) as [[H4 ->]|[[H4 ->]|[H4 ->]]]);
    lra.
Qed.

(** X1.  For a threshold [t >= 0], [soft_threshold] is the identity at
    [t = 0], and it shrinks every entry towards zero by [t]: the magnitude
    of an entry of the result is [max(|x| - t, 0)], not above [|x|], and an
    entry that is not zero keeps the sign of [x]. *)
Theorem soft_threshold_shrinks (X : matrix) (t : R) :
  0 <= t ->
  soft_threshold X 0 = Returned X /\
  exists Y, soft_threshold X t = Returned Y /\
    forall i j x, entry X i j = Some x ->
      exists y, entry Y i j = Some y /\
        Rabs y = Rmax (Rabs x - t) 0 /\ Rabs y <= Rabs x /\
        (y <> 0 -> sign y = sign x).
Proof.
  intros Ht. split.
  - unfold soft_threshold. f_equal. apply mmap_id. intros x.
    destruct (soft_threshold_elt_cases 0 x) as [[H1 ->]|[[H1 ->]|[H1 ->]]]; lra.
  - eexists. split; [reflexivity|]. intros i j x Hx.
    exists (soft_threshold_elt t x). rewrite entry_mmap, Hx.
    split; [reflexivity|].
    destruct (soft_threshold_elt_cases t x Ht) as [[H1 ->]|[[H1 ->]|[H1 ->]]];
      unfold Rmax; destruct (Rle_dec _ _) as [Hm|Hm]; revert Hm;
      unfold Rabs; repeat destruct (Rcase_abs _); intros Hm;
      repeat split; try lra; intros Hy; try lra;
      destruct (sign_cases x) as [[H3 ->]|[[H3 ->]|[H3 ->]]]; try lra;
      match goal with |- sign ?z = _ =>
        destruct (sign_cases z) as [[H4 ->]|[[H4 ->]|[H4 ->]]] end; lra.
Qed.

Lemma soft_threshold_shrinks_witness :
  soft_threshold [[3; -1]] 0 = Returned [[3; -1]] /\
  exists Y, soft_threshold [[3; -1]] 2 = Returned Y /\
    forall i j x, entry [[3; -1]] i j = Some x ->
      exists y, entry Y i j = Some y /\
        Rabs y = Rmax (Rabs x - 2) 0 /\ Rabs y <= Rabs x /\
        (y <> 0 -> sign y = sign x).
Proof. apply (soft_threshold_shrinks [[3; -1]] 2). lra. Defined.

(** X3.  Two hard thresholdings in a row are one hard thresholding with
    the larger threshold; in particular [hard_threshold] is idempotent. *)
Theorem hard_threshold_compose (X : matrix) (t1 t2 : R) :
  (Y ← hard_threshold X t1; hard_threshold Y t2) = hard_threshold X (Rmax t1 t2) /\
  (Y ← hard_threshold X t1; hard_threshold Y t1) = hard_threshold X t1.
Proof.
  assert (Hc : forall a b,
    (Y ← hard_threshold X a; hard_threshold Y b) = hard_threshold X (Rmax a b)).
  { intros a b. unfold hard_threshold. cbn. f_equal.
    rewrite mmap_mmap. apply mmap_ext. intros x.
    apply hard_threshold_elt_compose. }
  split; [apply Hc|].
  rewrite Hc. f_equal. apply Rmax_left. lra.
Qed.

(** X4.  For [t >= 0], [soft_threshold(X, t)] is [hard_threshold(X, t)]
    with every entry [h] moved towards zero by [t]: [h - t * sign(h)]. *)
Theorem soft_threshold_from_hard (X : matrix) (t : R) :
  0 <= t ->
  soft_threshold X t =
  (Y ← hard_threshold X t; mret (mmap (fun h => h - t * sign h) Y)).
Proof.
  intros Ht. unfold soft_threshold, hard_threshold. cbn. f_equal.
  rewrite mmap_mmap. apply mmap_ext. intros x. now apply soft_hard_elt.
Qed.

Lemma soft_threshold_from_hard_witness :
  soft_threshold [[3; -1]] 2 =
  (Y ← hard_threshold [[3; -1]] 2; mret (mmap (fun h => h - 2 * sign h) Y)).
Proof. apply (soft_threshold_from_hard [[3; -1]] 2). lra. Defined.

(** ** trim: arrays within their bounds *)

(** X5.  When no row of [U] and no row of [V] is above its bound, [trim]
    leaves the arrays of its caller as they are: the store after the call
    is the store before it. *)
Theorem trim_within_bounds_keeps_store `{LinAlg} (pU pV : loc) (Sig : matrix)
    (mu_U mu_V : R) (h h' : heap) (U V U' V' : matrix) :
  h !! pU = Some U -> h !! pV = Some V ->
  (forall row, row ∈ U -> sq_norm row <= trim_bound mu_U U) ->
  (forall row, row ∈ V -> sq_norm row <= trim_bound mu_V V) ->
  trim pU Sig pV mu_U mu_V h = Returned (U', V', h') ->
  h' = h.
Proof.
  intros HU HV HsU HsV Htrim.
  apply trim_inv in Htrim as (f & Hbody & _ & _).
  apply trim_body_inv in Hbody as (_ & _ & -> & _).
  rewrite (lookup_total_correct _ _ _ HU), (rescaled_id _ _ HsU).
  rewrite (insert_id _ _ _ HU).
  rewrite (lookup_total_correct _ _ _ HV), (rescaled_id _ _ HsV).
  now apply insert_id.
Qed.

Lemma trim_within_bounds_keeps_store_witness :
  <[2%positive := [[1 / 4]; [0]]]> (<[1%positive := [[1 / 4]; [0]]]> e1_heap_after)
  = e1_heap_after.
Proof.
  apply (@trim_within_bounds_keeps_store diag_lib 1%positive 2%positive [[1]]
           (1 / 2) (1 / 2) e1_heap_after _ [[1 / 4]; [0]] [[1 / 4]; [0]]
           e1_col e1_col);
    first [reflexivity | exact quarter_rows_small | exact trim_e1_again].
Defined.

(** ** AccAltProj: what a return implies *)

(** A relative residual is not negative: it is below no tolerance
    [e <= 0]. *)
Lemma residual_not_below_nonpositive D L S e :
  e <= 0 -> float_lt (residual D L S) e = false.
Proof.
  intros He. unfold residual, np_div.
  pose proof (norm_fro_nonneg (msub (msub D L) S)) as Ha.
  pose proof (norm_fro_nonneg D) as Hb.
  destruct (Req_dec_T (norm_fro D) 0) as [Hz|Hnz].
  - destruct (Rlt_dec 0 _); [reflexivity|].
    destruct (Rlt_dec _ 0); [lra|reflexivity].
  - unfold float_lt. destruct (Rlt_dec _ e) as [Hlt|]; [|reflexivity].
    exfalso. assert (0 <= norm_fro (msub (msub D L) S) / norm_fro D); [|lra].
    apply Rmult_le_pos; [lra|]. left. apply Rinv_0_lt_compat. lra.
Qed.

Section Return.
Context `{LinAlg}.
Variables (D : matrix) (r : nat) (p : params).

(** What an iteration that completes leaves in the state. *)
Lemma iteration_post i st st' :
  iteration D r p i st = Returned st' ->
  st_L st' = st_U st' @@ diag (take r (st_Sigma st')) @@ transpose (st_V st') /\
  hard_threshold (msub D (st_L st')) (st_ζ st') = Returned (st_S st') /\
  exists σr σ0,
    st_Sigma st' !! r = Some σr /\ st_Sigma st' !! 0%nat = Some σ0 /\
    st_ζ st' = β D p * (σr + γ p ^ i * σ0).
Proof.
  unfold iteration. intros Hit.
  apply bind_inv in Hit as (st1 & _ & Hit). cbv zeta in Hit.
  destruct (qr _) as [Q1' R1'] in Hit.
  destruct (qr _) as [Q2' R2'] in Hit.
  destruct (svd _) as [[U_of_M Sigma'] V_of_M] in Hit.
  apply bind_inv in Hit as (σr & Hσr & Hit).
  apply bind_inv in Hit as (σ0 & Hσ0 & Hit).
  apply bind_inv in Hit as (S' & HS & Hit).
  apply bind_inv in Hit as (out' & _ & Hit).
  injection Hit as <-. cbn.
  split; [reflexivity|]. split; [exact HS|].
  exists σr, σ0. unfold getitem in Hσr, Hσ0.
  destruct (Sigma' !! r); [|discriminate]. destruct (Sigma' !! 0%nat); [|discriminate].
  injection Hσr as ->. injection Hσ0 as ->. auto.
Qed.

(** The state that a [break] in iteration [k] leaves is the one that the
    body of the loop has produced for the index [k]. *)
Lemma loop_converged_state n i st st' k :
  loop D r p n i st = Returned (st', Converged k) ->
  exists st0, iteration D r p k st0 = Returned st'.
Proof.
  revert i st. induction n as [|n IH]; intros i st Hloop; [discriminate|].
  cbn [loop] in Hloop.
  apply bind_inv in Hloop as (st1 & Hit & Hloop).
  apply bind_inv in Hloop as (x & _ & Hloop).
  destruct (float_lt x (eps p)).
  - injection Hloop as <- <-. now exists st.
  - now apply IH in Hloop.
Qed.

(** The trace buffer when the loop is left by [break] in iteration [k]:
    the entries up to [out[i]] are those from before the loop, the entries
    written since, [out[i+1]] to [out[k]], are not below [eps], and
    [out[k+1]] is. *)
Lemma loop_trace n i st st' k :
  loop D r p n i st = Returned (st', Converged k) ->
  length (st_out st') = length (st_out st) /\
  (forall j, (j <= i)%nat -> st_out st' !! j = st_out st !! j) /\
  (forall j, (i < j <= k)%nat ->
     exists x, st_out st' !! j = Some x /\ float_lt x (eps p) = false) /\
  (exists x, st_out st' !! (k + 1)%nat = Some x /\ float_lt x (eps p) = true).
Proof.
  revert i st. induction n as [|n IH]; intros i st Hloop; [discriminate|].
  cbn [loop] in Hloop.
  apply bind_inv in Hloop as (st1 & Hit & Hloop).
  rewrite (iteration_out_lookup _ _ _ _ _ _ Hit) in Hloop. cbn in Hloop.
  pose proof (iteration_out _ _ _ _ _ _ Hit) as [Hlt Hout1].
  destruct (float_lt (residual D (st_L st1) (st_S st1)) (eps p)) eqn:Hres.
  - injection Hloop as <- <-. rewrite Hout1.
    split; [apply length_insert|]. split.
    + intros j Hj. apply list_lookup_insert_ne. lia.
    + split; [intros j Hj; lia|].
      eexists. split; [now apply list_lookup_insert_eq|exact Hres].
  - apply IH in Hloop as (Hlen & Hold & Hnew & Hlast).
    split; [rewrite Hlen, Hout1; apply length_insert|]. split.
    + intros j Hj. rewrite Hold by lia. rewrite Hout1.
      apply list_lookup_insert_ne. lia.
    + split; [|exact Hlast]. intros j Hj.
      destruct (decide (j = S i)) as [->|Hne].
      * exists (residual D (st_L st1) (st_S st1)). split; [|exact Hres].
        rewrite Hold by lia. rewrite Hout1.
        replace (S i) with (i + 1)%nat by lia.
        now apply list_lookup_insert_eq.
      * apply Hnew. lia.
Qed.
End Return.

(** X9.  A call of [AccAltProj] can return only with [niter >= 2] and a
    tolerance [eps > 0]: with [niter <= 1], or with [eps <= 0], every call
    ends in an exception. *)
Theorem AccAltProj_return_needs `{LinAlg} (D : matrix) (r : nat) (p : params)
    (v : list ndarray) :
  AccAltProj D r p = Returned v -> (2 <= niter p)%Z /\ 0 < eps p.
Proof.
  unfold AccAltProj. intros Hret.
  apply bind_inv in Hret as ([st [k|]] & Hrun & _).
  - apply run_converged in Hrun as [Hk Hres]. split; [lia|].
    destruct (Rlt_le_dec 0 (eps p)) as [|Hle]; [assumption|].
    rewrite residual_not_below_nonpositive in Hres by exact Hle.
    discriminate Hres.
  - now destruct (run_not_exhausted D r p st).
Qed.

Lemma AccAltProj_return_needs_witness :
  (2 <= niter no_params)%Z /\ 0 < eps no_params.
Proof.
  exact (@AccAltProj_return_needs diag_lib D_e11 1 no_params _ run_e11_default).
Defined.

(** X10.  When [AccAltProj] returns [(L, S)], its run was left by [break]
    in some iteration [k] with a final state in which [L] is the product
    [U @ diag(Sigma[:r]) @ V.T] of the factors of that iteration, and
    [S] is [hard_threshold(D - L, ζ)] for its threshold
    [ζ = β * (Sigma[r] + γ**k * Sigma[0])]: every entry of [S] is [0] or the
    entry of [D - L]. *)
Theorem AccAltProj_returns_factored `{LinAlg} (D : matrix) (r : nat) (p : params)
    (v : list ndarray) :
  AccAltProj D r p = Returned v ->
  exists st k σr σ0,
    AccAltProj_run D r p = Returned (st, Converged k) /\
    v = [Arr2 (st_L st); Arr2 (st_S st)] /\
    st_L st = st_U st @@ diag (take r (st_Sigma st)) @@ transpose (st_V st) /\
    st_Sigma st !! r = Some σr /\ st_Sigma st !! 0%nat = Some σ0 /\
    st_ζ st = β D p * (σr + γ p ^ k * σ0) /\
    hard_threshold (msub D (st_L st)) (st_ζ st) = Returned (st_S st) /\
    zero_or_same (msub D (st_L st)) (st_S st).
Proof.
  unfold AccAltProj. intros Hret.
  apply bind_inv in Hret as ([st [k|]] & Hrun & Hv).
  - injection Hv as <-. pose proof Hrun as Hloop.
    unfold AccAltProj_run in Hloop.
    apply bind_inv in Hloop as (st0 & _ & Hloop).
    apply loop_converged_state in Hloop as (st1 & Hit).
    apply iteration_post in Hit as (HL & HS & σr & σ0 & Hσr & Hσ0 & Hζ).
    exists st, k, σr, σ0. repeat (split; [assumption || reflexivity|]).
    injection HS as <-. intros i j x Hx.
    exists (hard_threshold_elt (st_ζ st) x). rewrite entry_mmap, Hx.
    split; [reflexivity|].
    destruct (hard_threshold_elt_cases (st_ζ st) x) as [[_ ->]|[_ ->]]; auto.
  - now destruct (run_not_exhausted D r p st).
Qed.

Lemma AccAltProj_returns_factored_witness :
  exists st k σr σ0,
    @AccAltProj_run diag_lib D_e11 1 no_params = Returned (st, Converged k) /\
    [Arr2 D_e11; Arr2 Z22] = [Arr2 (st_L st); Arr2 (st_S st)] /\
    st_L st = st_U st @@ diag (take 1 (st_Sigma st)) @@ transpose (st_V st) /\
    st_Sigma st !! 1%nat = Some σr /\ st_Sigma st !! 0%nat = Some σ0 /\
    st_ζ st = β D_e11 no_params * (σr + γ no_params ^ k * σ0) /\
    hard_threshold (msub D_e11 (st_L st)) (st_ζ st) = Returned (st_S st) /\
    zero_or_same (msub D_e11 (st_L st)) (st_S st).
Proof.
  exact (@AccAltProj_returns_factored diag_lib D_e11 1 no_params _ run_e11_default).
Defined.

(** X11.  When the loop of [AccAltProj] is left by [break] in iteration
    [k], the buffer [out] still has [niter] entries, [out[0]] is the
    residual after the initialisation (which is never compared with
    [eps]), [out[1]] to [out[k]] are not below [eps], and [out[k+1]] is the
    first entry below [eps]. *)
Theorem AccAltProj_trace `{LinAlg} (D : matrix) (r : nat) (p : params)
    (st : state) (k : nat) :
  AccAltProj_run D r p = Returned (st, Converged k) ->
  Z.of_nat (length (st_out st)) = niter p /\
  (exists st0, AccAltProj_init D r p = Returned st0 /\
     st_out st !! 0%nat = Some (residual D (st_L st0) (st_S st0))) /\
  (forall j, (1 <= j <= k)%nat ->
     exists x, st_out st !! j = Some x /\ float_lt x (eps p) = false) /\
  (exists x, st_out st !! (k + 1)%nat = Some x /\ float_lt x (eps p) = true).
Proof.
  unfold AccAltProj_run. intros Hrun.
  apply bind_inv in Hrun as (st0 & Hin & Hloop).
  pose proof (init_out _ _ _ _ Hin) as [Hpos Hout0].
  apply loop_trace in Hloop as (Hlen & Hold & Hnew & Hlast).
  split.
  { rewrite Hlen, Hout0, length_insert, length_replicate. lia. }
  split.
  { exists st0. split; [exact Hin|]. rewrite Hold by lia. rewrite Hout0.
    apply list_lookup_insert_eq. now rewrite length_replicate. }
  split; [|exact Hlast].
  intros j Hj. apply Hnew. lia.
Qed.

Lemma run_e11_converged :
  @AccAltProj_run diag_lib D_e11 1 no_params =
  Returned (e11_state [1; 0] (1 / 2 * (7 / 10) ^ 0)
              (<[1%nat := Finite 0]>
                 (<[0%nat := Finite 0]> (replicate (Z.to_nat 100) (Finite 0)))),
            Converged 0).
Proof.
  change no_params with (e11_params None None).
  unfold AccAltProj_run. rewrite init_e11 by (cbn; lia).
  cbn [mbind py_bind default].
  change (Z.to_nat (niter (e11_params None None))) with (S (S 98)). cbn [loop].
  rewrite iteration_e11 by (rewrite length_insert, length_replicate; lia). cbn.
  unfold getitem. rewrite list_lookup_insert_eq
    by (rewrite length_insert, length_replicate; lia). cbn.
  rewrite float_lt_0, eps_e11. cbn. destruct (Rlt_dec _ _) as [|Hn]; [reflexivity|].
  exfalso. apply Hn. lra.
Qed.

Lemma AccAltProj_trace_witness :
  exists st,
    @AccAltProj_run diag_lib D_e11 1 no_params = Returned (st, Converged 0) /\
    Z.of_nat (length (st_out st)) = niter no_params /\
    (exists st0, @AccAltProj_init diag_lib D_e11 1 no_params = Returned st0 /\
       st_out st !! 0%nat = Some (residual D_e11 (st_L st0) (st_S st0))) /\
    (forall j, (1 <= j <= 0)%nat ->
       exists x, st_out st !! j = Some x /\ float_lt x (eps no_params) = false) /\
    (exists x, st_out st !! (0 + 1)%nat = Some x /\ float_lt x (eps no_params) = true).
Proof.
  eexists. split; [exact run_e11_converged|].
  exact (@AccAltProj_trace diag_lib D_e11 1 no_params _ 0%nat run_e11_converged).
Defined.

(** X12.  With trimming enabled and an empty list [µ], a call whose
    initialisation succeeds raises [IndexError] in its first iteration, at
    [µ[0]]. *)
Theorem trimming_needs_a_bound `{LinAlg} (D : matrix) (r : nat) (p : params)
    (st : state) :
  trimming p = true -> µ p = [] ->
  AccAltProj_init D r p = Returned st ->
  AccAltProj D r p = Raised IndexError.
Proof.
  intros Ht Hµ Hin. unfold AccAltProj, AccAltProj_run. rewrite Hin.
  apply init_out in Hin as [Hpos _].
  destruct (Z.to_nat (niter p)) as [|n]; [lia|].
  cbn [mbind py_bind loop]. unfold iteration, trim_step.
  rewrite Ht, Hµ. reflexivity.
Qed.

Lemma init_e11_no_bound :
  @AccAltProj_init diag_lib D_e11 1 params_no_bound =
  Returned (e11_state [1] (1 / 2)
    (<[0%nat := Finite 0]> (replicate (Z.to_nat 100) (Finite 0)))).
Proof.
  assert (Hβ : β D_e11 params_no_bound = 1 / 2) by exact (β_e11 None None).
  assert (Hβi : β_init D_e11 params_no_bound = 2).
  { unfold β_init. cbn [p_β_init params_no_bound default]. rewrite Hβ. lra. }
  unfold AccAltProj_init. cbn.
  rewrite getitem_0. cbn. rewrite Hβi, Hβ.
  autorewrite with rsimpl.
  rewrite (hard_threshold_elt_drop 2 1) by (rewrite Rabs_R1; lra).
  autorewrite with rsimpl. rewrite getitem_0. cbn.
  autorewrite with rsimpl.
  rewrite residual_e11.
  change (niter params_no_bound) with 100%Z.
  rewrite np_empty_nonneg by lia. cbn [mbind py_bind].
  rewrite setitem_lt by (rewrite length_replicate; lia).
  reflexivity.
Qed.

Lemma trimming_needs_a_bound_witness :
  @AccAltProj diag_lib D_e11 1 params_no_bound = Raised IndexError.
Proof.
  exact (@trimming_needs_a_bound diag_lib D_e11 1 params_no_bound _
           eq_refl eq_refl init_e11_no_bound).
Defined.

(** ** stack_images and the frames of save_output *)

Lemma chunks_concat {A : Type} (rows cols : nat) (M : list (list A)) :
  length M = rows -> Forall (fun row => length row = cols) M ->
  chunks rows cols (concat M) = M.
Proof.
  intros Hlen Hrows. revert rows Hlen.
  induction Hrows as [|row M Hrow _ IH]; intros rows Hlen.
  - now subst rows.
  - destruct rows as [|rows]; [discriminate Hlen|].
    cbn [concat chunks].
    rewrite take_app_length', drop_app_length' by now symmetry.
    f_equal. apply IH. now injection Hlen.
Qed.

Lemma length_concat_uniform {A : Type} (cols : nat) (M : list (list A)) :
  Forall (fun row => length row = cols) M ->
  length (concat M) = (length M * cols)%nat.
Proof.
  induction 1 as [|row M Hrow _ IH]; [reflexivity|].
  cbn [concat length]. rewrite length_app, IH, Hrow. lia.
Qed.

Lemma np_reshape_concat {A : Type} (rows cols : nat) (M : list (list A)) :
  length M = rows -> Forall (fun row => length row = cols) M ->
  np_reshape (concat M) rows cols = Returned M.
Proof.
  intros Hlen Hrows. unfold np_reshape.
  rewrite (length_concat_uniform cols) by exact Hrows. rewrite Hlen.
  destruct (decide _); [|contradiction].
  now rewrite chunks_concat.
Qed.

Lemma fmap_concat {A B : Type} (f : A -> B) (M : list (list A)) :
  f <$> concat M = concat ((fun row : list A => f <$> row) <$> M).
Proof.
  induction M as [|row M IH]; [reflexivity|].
  cbn [concat]. now rewrite fmap_app, IH.
Qed.

(** An array is the table of its entries. *)
Lemma matrix_tabulate n m (A : matrix) :
  well_shaped n m A ->
  (fun a => (fun b => get A a b) <$> seq 0 m) <$> seq 0 n = A.
Proof.
  intros HA. apply (matrix_ext n m); [|exact HA|].
  - split; [now rewrite length_fmap, length_seq|].
    apply Forall_fmap, Forall_true. intros a. cbn.
    now rewrite length_fmap, length_seq.
  - intros i j Hi Hj. unfold get at 1.
    rewrite (nth_fmap _ _ _ _ 0%nat) by now rewrite length_seq.
    rewrite (nth_fmap _ _ _ _ 0%nat) by now rewrite length_seq.
    now rewrite !seq_nth by assumption.
Qed.

Section Stack.
Variables (n m : nat) (images : list matrix).
Hypothesis Hshape : Forall (well_shaped n m) images.

Lemma np_stack_last_rows :
  length (concat (np_stack_last n m images)) = (n * m)%nat /\
  Forall (fun row : vec => length row = length images)
         (concat (np_stack_last n m images)).
Proof.
  unfold np_stack_last. split.
  - rewrite (length_concat_uniform m).
    + now rewrite length_fmap, length_seq.
    + apply Forall_fmap, Forall_true. intros a. cbn.
      now rewrite length_fmap, length_seq.
  - apply Forall_forall. intros row Hrow.
    apply list_elem_of_In, in_concat in Hrow as (rows & Hrows & Hin).
    apply list_elem_of_In, list_elem_of_fmap in Hrows as (a & -> & _).
    apply list_elem_of_In, list_elem_of_fmap in Hin as (b & -> & _).
    apply length_fmap.
Qed.

(** The column [i] of the stacked matrix is the image [i], flattened. *)
Lemma np_stack_last_column i img :
  images !! i = Some img ->
  (fun row : vec => nth i row 0) <$> concat (np_stack_last n m images) = concat img.
Proof.
  intros Himg.
  assert (Hi : (i < length images)%nat) by now apply lookup_lt_Some with img.
  assert (Hwf : well_shaped n m img).
  { rewrite Forall_forall in Hshape. apply Hshape.
    now apply list_elem_of_lookup_2 with i. }
  transitivity (concat ((fun a => (fun b => get img a b) <$> seq 0 m) <$> seq 0 n));
    [|now rewrite (matrix_tabulate n m img Hwf)].
  unfold np_stack_last. rewrite fmap_concat. f_equal.
  rewrite <- list_fmap_compose. apply list_fmap_ext. intros _ a _. cbn.
  rewrite <- list_fmap_compose. apply list_fmap_ext. intros _ b _. cbn.
  rewrite (nth_fmap _ _ _ _ []) by exact Hi.
  now rewrite (nth_lookup_Some _ _ _ _ Himg).
Qed.
End Stack.

(** X13.  When [stack_images] returns [(images_matrix, n, m, k)], [k] is
    the number of images, [images_matrix] has [n * m] rows and [k] columns,
    and the frame that [save_output] cuts out of it for the index [i]
    (column [i], reshaped to [n] by [m], before the scaling to 8 bits) is
    the image [i] again. *)
Theorem stack_images_frames (images : list matrix) (M : matrix) (n m k : nat) :
  stack_images images = Returned (M, n, m, k) ->
  k = length images /\ well_shaped (n * m) k M /\
  forall i img, images !! i = Some img -> L_frame M n m k i = Returned img.
Proof.
  unfold stack_images. destruct images as [|img0 images'] eqn:Himages;
    [discriminate|].
  rewrite <- Himages. clear images' Himages.
  destruct (decide _) as [Hshape|]; [|discriminate].
  intros Hret. apply bind_inv in Hret as (M' & HM & Hret).
  injection Hret as <- <- <- <-.
  destruct (np_stack_last_rows (nrows img0) (ncols img0) images) as [Hlen Hrows].
  rewrite (np_reshape_concat (nrows img0 * ncols img0) (length images)) in HM
    by assumption.
  injection HM as <-.
  split; [reflexivity|]. split; [split; assumption|].
  intros i img Himg. unfold L_frame.
  rewrite (np_reshape_concat (nrows img0 * ncols img0) (length images))
    by assumption.
  cbn [mbind py_bind].
  destruct (decide _) as [_|Hge];
    [|exfalso; apply Hge; now apply lookup_lt_Some with img].
  rewrite (np_stack_last_column _ _ _ Hshape i img Himg).
  assert (Hwf : well_shaped (nrows img0) (ncols img0) img).
  { rewrite Forall_forall in Hshape. apply Hshape.
    now apply list_elem_of_lookup_2 with i. }
  apply np_reshape_concat; apply Hwf.
Qed.

Lemma stack_images_two :
  stack_images [[[1; 2]]; [[3; 4]]] = Returned ([[1; 3]; [2; 4]], 1%nat, 2%nat, 2%nat).
Proof. reflexivity. Qed.

Lemma stack_images_frames_witness :
  2%nat = length [[[1; 2]]; [[3; 4]]] /\ well_shaped (1 * 2) 2 [[1; 3]; [2; 4]] /\
  forall i img, [[[1; 2]]; [[3; 4]]] !! i = Some img ->
    L_frame [[1; 3]; [2; 4]] 1 2 2 i = Returned img.
Proof. exact (stack_images_frames _ _ _ _ _ stack_images_two). Defined.

Lemma well_shaped_dims (img0 img : matrix) :
  well_shaped (nrows img0) (ncols img0) img ->
  nrows img = nrows img0 /\ ncols img = ncols img0.
Proof.
  intros [Hlen Hrows]. split; [exact Hlen|].
  destruct img as [|row img].
  - destruct img0; [reflexivity|discriminate Hlen].
  - apply Forall_cons in Hrows as [Hrow _]. exact Hrow.
Qed.

(** X14.  [stack_images] raises [ValueError] for an empty list of images,
    and for a list in which some image has another number of rows or of
    columns than the first one. *)
Theorem stack_images_rejects (images : list matrix) :
  images = [] \/
  (exists img0 img, head images = Some img0 /\ img ∈ images /\
     (nrows img <> nrows img0 \/ ncols img <> ncols img0)) ->
  stack_images images = Raised ValueError.
Proof.
  intros [->|(img0 & img & Hhead & Hin & Hbad)]; [reflexivity|].
  unfold stack_images. destruct images as [|img0' images']; [discriminate|].
  injection Hhead as ->.
  destruct (decide _) as [Hshape|]; [|reflexivity].
  rewrite Forall_forall in Hshape.
  destruct (well_shaped_dims img0 img (Hshape img Hin)) as [Hn Hm].
  destruct Hbad as [Hbad|Hbad]; contradiction.
Qed.

Lemma stack_images_rejects_witness :
  stack_images [[[1; 2]]; [[3]]] = Raised ValueError.
Proof.
  apply stack_images_rejects. right. exists [[1; 2]], [[3]].
  split; [reflexivity|]. split; [set_solver|].
  right. cbn. lia.
Defined.

(** ** The binary mask of save_output *)

Lemma binary_mask_pixel (x : Z) :
  (let x1 := if bool_decide (220 < x)%Z then 0%Z else x in
   let x2 := if bool_decide (50 <= x1)%Z then 255%Z else x1 in
   if bool_decide (x2 < 50)%Z then 0%Z else x2) = in_band x.
Proof.
  unfold in_band. cbn zeta.
  repeat case_bool_decide; lia.
Qed.

(** X15.  The three masked assignments that [save_output] applies to a
    frame, in their order, leave 255 at the pixels whose value was between
    50 and 220 and 0 at every other pixel: the values above 220 are zeroed
    before the middle band is raised to 255. *)
Theorem binary_mask_band (S_frame : list (list Z)) :
  binary_mask S_frame = (fun row : list Z => in_band <$> row) <$> S_frame.
Proof.
  unfold binary_mask, masked_assign.
  rewrite <- !list_fmap_compose. apply list_fmap_ext. intros _ row _. cbn.
  rewrite <- !list_fmap_compose. apply list_fmap_ext. intros _ x _. cbn.
  apply binary_mask_pixel.
Qed.

(** ** evaluate *)

Lemma length_py_range (a b : Z) : length (py_range a b) = Z.to_nat (b - a).
Proof. unfold py_range. now rewrite length_fmap, length_seq. Qed.

Lemma py_range_empty (a b : Z) : (b <= a)%Z -> py_range a b = [].
Proof.
  intros Hab. unfold py_range.
  replace (Z.to_nat (b - a)) with 0%nat by lia. reflexivity.
Qed.

Lemma evaluate_inv `{Imaging} gts masks roi avg :
  evaluate gts masks roi = Returned avg ->
  exists roi0 roi1 s,
    default [1%Z; (Z.of_nat (length gts) + 1)%Z] roi !! 0%nat = Some roi0 /\
    default [1%Z; (Z.of_nat (length gts) + 1)%Z] roi !! 1%nat = Some roi1 /\
    for_each (evaluate_frame gts masks) (py_range (roi0 - 1) (roi1 - 1))
      {| precision := 0; recall := 0; f1_score := 0 |} = Returned s /\
    (roi1 - roi0 <> 0)%Z /\
    avg = {| precision := precision s / IZR (roi1 - roi0);
             recall := recall s / IZR (roi1 - roi0);
             f1_score := f1_score s / IZR (roi1 - roi0) |}.
Proof.
  unfold evaluate. intros Hret.
  apply bind_inv in Hret as (roi0 & H0 & Hret).
  apply bind_inv in Hret as (roi1 & H1 & Hret).
  apply bind_inv in Hret as (s & Hs & Hret).
  destruct (decide _) as [|Hne]; [discriminate|].
  injection Hret as <-.
  exists roi0, roi1, s. repeat split; try assumption.
  - unfold getitem in H0. destruct (_ !! 0%nat); [now injection H0 as ->|discriminate].
  - unfold getitem in H1. destruct (_ !! 1%nat); [now injection H1 as ->|discriminate].
Qed.

Section Sums.
Context `{Imaging}.
Variables (lo hi : R) (gts masks : list String.string).
Hypothesis Hscores :
  forall mask gt m, compute_metrics mask gt = Returned m -> metrics_between lo hi m.

Lemma evaluate_frame_between acc i acc' :
  evaluate_frame gts masks acc i = Returned acc' ->
  precision acc + lo <= precision acc' <= precision acc + hi /\
  recall acc + lo <= recall acc' <= recall acc + hi /\
  f1_score acc + lo <= f1_score acc' <= f1_score acc + hi.
Proof.
  unfold evaluate_frame. intros Hret.
  apply bind_inv in Hret as (gt_path & _ & Hret).
  apply bind_inv in Hret as (gt & _ & Hret).
  apply bind_inv in Hret as (mask_path & _ & Hret).
  apply bind_inv in Hret as (mask & _ & Hret).
  apply bind_inv in Hret as (m & Hm & Hret).
  injection Hret as <-.
  destruct (Hscores _ _ _ Hm) as (Hp & Hr & Hf).
  unfold add_metrics. cbn. lra.
Qed.

Lemma for_each_between xs acc acc' :
  for_each (evaluate_frame gts masks) xs acc = Returned acc' ->
  precision acc + INR (length xs) * lo <= precision acc'
    <= precision acc + INR (length xs) * hi /\
  recall acc + INR (length xs) * lo <= recall acc'
    <= recall acc + INR (length xs) * hi /\
  f1_score acc + INR (length xs) * lo <= f1_score acc'
    <= f1_score acc + INR (length xs) * hi.
Proof.
  revert acc. induction xs as [|x xs IH]; intros acc Hret.
  - injection Hret as <-. cbn. lra.
  - cbn [for_each] in Hret. apply bind_inv in Hret as (acc1 & H1 & Hret).
    apply evaluate_frame_between in H1. apply IH in Hret.
    cbn [length]. rewrite S_INR. lra.
Qed.
End Sums.

Lemma average_between (lo hi s : R) (d : Z) :
  (0 < d)%Z -> IZR d * lo <= s <= IZR d * hi -> lo <= s / IZR d <= hi.
Proof.
  intros Hd [Hlo Hhi].
  assert (Hpos : 0 < IZR d) by now apply IZR_lt.
  assert (Hinv : 0 < / IZR d) by now apply Rinv_0_lt_compat.
  unfold Rdiv. split.
  - replace lo with (IZR d * lo * / IZR d) by (field; lra).
    apply Rmult_le_compat_r; lra.
  - replace hi with (IZR d * hi * / IZR d) by (field; lra).
    apply Rmult_le_compat_r; lra.
Qed.

(** X16.  [evaluate] raises [ZeroDivisionError] when the two ends of the
    region of interest are equal (with [roi = None], when there is no
    ground-truth frame): the loop reads no frame and the sums are divided
    by [roi[1] - roi[0] = 0]. *)
Theorem evaluate_empty_roi `{Imaging} (gts masks : list String.string)
    (roi : option (list Z)) (a : Z) (rest : list Z) :
  default [1%Z; (Z.of_nat (length gts) + 1)%Z] roi = a :: a :: rest ->
  evaluate gts masks roi = Raised ZeroDivisionError.
Proof.
  intros Hroi. unfold evaluate. rewrite Hroi.
  unfold getitem. cbn [lookup list_lookup mbind py_bind].
  rewrite py_range_empty by lia. cbn [for_each mret py_ret mbind py_bind].
  destruct (decide _) as [_|Hne]; [reflexivity|]. exfalso. apply Hne. lia.
Qed.

Lemma evaluate_empty_roi_witness :
  @evaluate same_frames [] [] None = Raised ZeroDivisionError.
Proof. exact (@evaluate_empty_roi same_frames [] [] None 1%Z [] eq_refl). Defined.

(** X17.  When the region of interest ends before it starts
    ([roi[1] < roi[0]]), [evaluate] reads no frame and returns the three
    averages as zero, whatever the lists of files hold. *)
Theorem evaluate_reversed_roi `{Imaging} (gts masks : list String.string)
    (roi : option (list Z)) (roi0 roi1 : Z) (rest : list Z) :
  default [1%Z; (Z.of_nat (length gts) + 1)%Z] roi = roi0 :: roi1 :: rest ->
  (roi1 < roi0)%Z ->
  evaluate gts masks roi =
    Returned {| precision := 0; recall := 0; f1_score := 0 |}.
Proof.
  intros Hroi Hlt. unfold evaluate. rewrite Hroi.
  unfold getitem. cbn [lookup list_lookup mbind py_bind].
  rewrite py_range_empty by lia. cbn [for_each mret py_ret mbind py_bind].
  destruct (decide _) as [Heq|_]; [lia|].
  cbn [precision recall f1_score]. unfold Rdiv. now rewrite Rmult_0_l.
Qed.

Lemma evaluate_reversed_roi_witness :
  @evaluate no_files [] [] (Some [5; 2]%Z) =
    Returned {| precision := 0; recall := 0; f1_score := 0 |}.
Proof.
  apply (@evaluate_reversed_roi no_files [] [] (Some [5; 2]%Z) 5%Z 2%Z []);
    [reflexivity|lia].
Defined.

(** X18.  When [compute_metrics] only returns scores between [lo] and
    [hi], the averages that [evaluate] returns for a region of interest
    with [roi[0] < roi[1]] lie between [lo] and [hi] too. *)
Theorem evaluate_average_between `{Imaging} (lo hi : R)
    (gts masks : list String.string) (roi : option (list Z))
    (roi0 roi1 : Z) (rest : list Z) (avg : metrics) :
  (forall mask gt m, compute_metrics mask gt = Returned m ->
     metrics_between lo hi m) ->
  default [1%Z; (Z.of_nat (length gts) + 1)%Z] roi = roi0 :: roi1 :: rest ->
  (roi0 < roi1)%Z ->
  evaluate gts masks roi = Returned avg ->
  metrics_between lo hi avg.
Proof.
  intros Hscores Hroi Hlt Hret.
  apply evaluate_inv in Hret as (r0 & r1 & s & H0 & H1 & Hs & _ & ->).
  rewrite Hroi in H0, H1. injection H0 as <-. injection H1 as <-.
  apply (for_each_between lo hi gts masks Hscores) in Hs.
  rewrite length_py_range in Hs.
  replace (roi1 - 1 - (roi0 - 1))%Z with (roi1 - roi0)%Z in Hs by lia.
  rewrite INR_IZR_INZ, Z2Nat.id in Hs by lia.
  cbn [precision recall f1_score] in Hs.
  destruct Hs as (Hp & Hr & Hf).
  unfold metrics_between. cbn [precision recall f1_score].
  split; [|split]; apply average_between; try lia; lra.
Qed.

Lemma evaluate_same_frames :
  @evaluate same_frames Files.groundtruths Files.masks None =
    Returned {| precision := (0 + 1 + 1) / 2; recall := (0 + 1 + 1) / 2;
                f1_score := (0 + 1 + 1) / 2 |}.
Proof. reflexivity. Qed.

Lemma evaluate_average_between_witness :
  metrics_between 0 1
    {| precision := (0 + 1 + 1) / 2; recall := (0 + 1 + 1) / 2;
       f1_score := (0 + 1 + 1) / 2 |}.
Proof.
  apply (@evaluate_average_between same_frames 0 1
           Files.groundtruths Files.masks None 1%Z 3%Z []).
  - intros mask gt m Hm. injection Hm as <-.
    unfold metrics_between. cbn. lra.
  - reflexivity.
  - lia.
  - exact evaluate_same_frames.
Defined.
